(** * verilog_lsp: the document synchronisation core of [server/server.py]

    A shallow embedding of the SystemVerilog language server: the edit
    applicator [_apply_incremental_changes], the parse adapter [_parse], the
    diagnostic extractor [_get_diagnostics] / [_find_syntax_errors] and the
    handlers [did_open] / [did_change], followed by the properties of the
    specification that concern them.

    Python values are modelled as follows.
    - [str] is a list of Unicode code points ([N]); [bytes] is a list of
      octets ([N] below 256).
    - A raised exception is the [Raise] branch of the result type [res]; a
      handler returns the server it leaves behind together with what it
      published or raised.
    - [list] objects are Rocq lists, indexed with stdpp's lookup; the
      [documents] dict is a [gmap] from URIs to texts.
    - LSP line and character numbers are unsigned, hence [nat]. *)

From Stdlib Require Import NArith Ascii String.
From stdpp Require Import base option list sorting gmap strings.

Local Open Scope N_scope.
Local Open Scope nat_scope.
Local Open Scope list_scope.

(** ** Python strings *)

Abbreviation char := N (only parsing).
Abbreviation str := (list N) (only parsing).
Abbreviation bytes := (list N) (only parsing).

(** The code point of ['\n']. *)
Definition NL : char := 10%N.

(** A string literal of the source, as a list of code points. *)
Fixpoint lit (s : string) : str :=
  match s with
  | EmptyString => []
  | String a s' => N_of_ascii a :: lit s'
  end.

(** [s.split('\n')]: never empty, one more piece than there are newlines. *)
Fixpoint split (s : str) : list str :=
  match s with
  | [] => [[]]
  | c :: s' =>
      if N.eqb c NL then [] :: split s'
      else match split s' with
           | [] => [[c]]
           | l :: ls => (c :: l) :: ls
           end
  end.

(** ['\n'.join(lines)]. *)
Fixpoint join (lines : list str) : str :=
  match lines with
  | [] => []
  | [l] => l
  | l :: ls => l ++ NL :: join ls
  end.

(** ** Exceptions *)

Inductive exn : Set :=
  | AttributeError      (* [None.start] *)
  | IndexError          (* [lines[i]] with [i] out of range *)
  | UnicodeEncodeError  (* [bytes(text, "utf8")] on a lone surrogate *)
  | RecursionError      (* [traverse] nested beyond the interpreter's limit *)
  | ParserError.        (* whatever the external parser raises *)

Inductive res (A : Type) : Type :=
  | Ok (a : A)
  | Raise (e : exn).
Arguments Ok {A} a.
Arguments Raise {A} e.

#[global] Instance res_ret : MRet res := fun A a => Ok a.
#[global] Instance res_bind : MBind res := fun A B f m =>
  match m with
  | Ok a => f a
  | Raise e => Raise e
  end.

Definition raises {A} (m : res A) : bool :=
  match m with
  | Ok _ => false
  | Raise _ => true
  end.

(** [l[i]] for a non-negative [i]. *)
Definition getitem {A} (l : list A) (i : nat) : res A :=
  match l !! i with
  | Some x => Ok x
  | None => Raise IndexError
  end.

(** [l[i:j] = new] for non-negative [i], [j]: both ends are clamped to the
    length, and an end before the start denotes the empty slice at [i]. *)
Definition slice_assign {A} (l : list A) (i j : nat) (new : list A) : list A :=
  take i l ++ new ++ drop (i `max` j) l.

(** ** LSP types *)

Record Position : Set := mkPosition { line : nat; character : nat }.

Record Range : Set := mkRange { range_start : Position; range_end : Position }.

(** A [TextDocumentContentChangeEvent] is an object of one of two classes of
    lsprotocol: [TextDocumentContentChangeEvent_Type1], with the attributes
    [range] and [text], or [TextDocumentContentChangeEvent_Type2], the whole
    document change, with [text] alone. A client's change is of the first
    class exactly when it has a range; a [range] that is [None] is possible
    only in an object built by hand. *)
Inductive TextDocumentContentChangeEvent : Set :=
  | mkChange (range : option Range) (text : str)
  | mkChange_Type2 (text : str).

(** The attribute read [c.range]: an object of the second class has no such
    attribute. *)
Definition get_range (c : TextDocumentContentChangeEvent)
  : res (option Range) :=
  match c with
  | mkChange range _ => Ok range
  | mkChange_Type2 _ => Raise AttributeError
  end.

(** The attribute read [c.text]. *)
Definition change_text (c : TextDocumentContentChangeEvent) : str :=
  match c with
  | mkChange _ text => text
  | mkChange_Type2 text => text
  end.

(** The range the change carries, if it carries one. *)
Definition change_range (c : TextDocumentContentChangeEvent) : option Range :=
  match c with
  | mkChange range _ => range
  | mkChange_Type2 _ => None
  end.

Inductive DiagnosticSeverity : Set := Error | Warning | Information | Hint.

Record Diagnostic : Set := mkDiagnostic {
  diag_range : Range;
  severity : DiagnosticSeverity;
  message : str
}.

(** The two shapes of an edit operation of the specification, as a client
    sends them. *)
Definition FullReplace (s : str) : TextDocumentContentChangeEvent :=
  mkChange_Type2 s.

Definition RangeReplace (sl sc el ec : nat) (s : str)
  : TextDocumentContentChangeEvent :=
  mkChange (Some (mkRange (mkPosition sl sc) (mkPosition el ec))) s.

(** ** Edit applicator *)

(** The key of [sorted]: [(c.range.start.line, c.range.start.character)];
    [c.range] raises on a change of the second class, and [.start] on a
    range that is [None]. *)
Definition sort_key (c : TextDocumentContentChangeEvent) : res (nat * nat) :=
  range ← get_range c;
  match range with
  | None => Raise AttributeError
  | Some r => Ok (line (range_start r), character (range_start r))
  end.

(** Tuple comparison [a < b]. *)
Definition key_ltb (a b : nat * nat) : bool :=
  (a.1 <? b.1) || ((a.1 =? b.1) && (a.2 <? b.2)).

(** Stable insertion into a list that is descending by key: the new element
    goes before the first one whose key is not greater than its own. *)
Fixpoint insert_desc {A} (x : (nat * nat) * A) (l : list ((nat * nat) * A))
  : list ((nat * nat) * A) :=
  match l with
  | [] => [x]
  | y :: l' =>
      if key_ltb x.1 y.1 then y :: insert_desc x l' else x :: y :: l'
  end.

(** [sorted(changes, key=..., reverse=True)]: every key is computed first, in
    list order; the sort is stable, so changes with equal keys keep their
    order. *)
Definition sorted_reverse (changes : list TextDocumentContentChangeEvent)
  : res (list TextDocumentContentChangeEvent) :=
  keyed ← mapM (fun c => k ← sort_key c; mret (k, c)) changes;
  mret ((foldr insert_desc [] keyed).*2).

(** The body of the loop for a change with a range: the new [lines]. *)
Definition apply_range (lines : list str) (r : Range) (txt : str)
  : res (list str) :=
  let start_line := line (range_start r) in
  let start_char := character (range_start r) in
  let end_line := line (range_end r) in
  let end_char := character (range_end r) in
  if decide (start_line = end_line) then
    l ← getitem lines start_line;
    mret (<[start_line := take start_char l ++ txt ++ drop end_char l]> lines)
  else
    before ← (if decide (start_line < length lines)
              then l ← getitem lines start_line; mret (take start_char l)
              else mret []);
    after ← (if decide (end_line < length lines)
             then l ← getitem lines end_line; mret (drop end_char l)
             else mret []);
    let new_lines := split (before ++ txt ++ after) in
    mret (slice_assign lines start_line (end_line + 1) new_lines).

(** The [for] loop over the sorted changes, with its early [return]. *)
Fixpoint apply_loop (lines : list str)
  (sorted_changes : list TextDocumentContentChangeEvent) : res str :=
  match sorted_changes with
  | [] => Ok (join lines)
  | change :: rest =>
      range ← get_range change;
      match range with
      | None => Ok (change_text change)
      | Some r =>
          lines' ← apply_range lines r (change_text change);
          apply_loop lines' rest
      end
  end.

Definition _apply_incremental_changes (text : str)
  (changes : list TextDocumentContentChangeEvent) : res str :=
  let lines := split text in
  sorted_changes ← sorted_reverse changes;
  apply_loop lines sorted_changes.

(** ** Parse adapter *)

(** [bytes(text, "utf8")]: the strict encoder refuses the surrogate code
    points. Code points of a [str] are below [0x110000]. *)
Definition utf8_char (c : char) : res bytes :=
  if (c <? 0x80)%N then Ok [c]
  else if (c <? 0x800)%N then
    Ok [0xC0 + c / 0x40; 0x80 + c mod 0x40]%N
  else if ((0xD800 <=? c) && (c <? 0xE000))%N then Raise UnicodeEncodeError
  else if (c <? 0x10000)%N then
    Ok [0xE0 + c / 0x1000; 0x80 + (c / 0x40) mod 0x40; 0x80 + c mod 0x40]%N
  else
    Ok [0xF0 + c / 0x40000; 0x80 + (c / 0x1000) mod 0x40;
        0x80 + (c / 0x40) mod 0x40; 0x80 + c mod 0x40]%N.

Definition utf8 (text : str) : res bytes :=
  encoded ← mapM utf8_char text;
  mret (concat encoded).

(** A tree-sitter node, with the attributes the server reads. *)
#[local] Unset Elimination Schemes.
Inductive Node : Set := mkNode {
  type : string;
  start_byte : nat;
  end_byte : nat;
  start_point : nat * nat;
  end_point : nat * nat;
  is_missing : bool;
  has_error : bool;
  children : list Node
}.

#[local] Set Elimination Schemes.

Record Tree : Set := mkTree { root_node : Node }.

(** The server object: the external parser ([self.parser.parse], which may
    raise) and the text buffer store ([self.documents]). With it goes
    [frames], the depth to which the interpreter lets [traverse] nest below a
    handler before it raises [RecursionError]: its recursion limit less the
    frames in use. *)
Record SystemVerilogLanguageServer : Type := mkServer {
  parser_parse : bytes -> res Tree;
  frames : nat;
  documents : gmap string str
}.

(** [_parse]: the [try] covers the encoding and the parser call; any
    exception becomes [None]. *)
Definition _parse (self : SystemVerilogLanguageServer) (text : str)
  : option Tree :=
  match (b ← utf8 text; parser_parse self b) with
  | Ok tree => Some tree
  | Raise _ => None
  end.

(** ** Diagnostic extractor *)

Definition _node_to_range (node : Node) : Range :=
  mkRange (mkPosition (start_point node).1 (start_point node).2)
          (mkPosition (end_point node).1 (end_point node).2).

(** [text[a:b]] for non-negative [a], [b]. *)
Definition slice {A} (l : list A) (a b : nat) : list A :=
  take (b - a) (drop a l).

Definition error_diagnostic (text : str) (n : Node) : Diagnostic :=
  let error_text := slice text (start_byte n) (end_byte n) in
  mkDiagnostic (_node_to_range n) Error
    (lit "Syntax error: '" ++ error_text ++ lit "'").

Definition missing_diagnostic (n : Node) : Diagnostic :=
  mkDiagnostic (_node_to_range n) Error (lit "Missing token").

(** The inner [traverse] of [_find_syntax_errors]; the list it appends to is
    threaded through. *)
Fixpoint traverse (text : str) (n : Node) (diagnostics : list Diagnostic)
  : list Diagnostic :=
  let diagnostics :=
    if decide (type n = "ERROR"%string) then
      diagnostics ++ [error_diagnostic text n]
    else if is_missing n then
      diagnostics ++ [missing_diagnostic n]
    else diagnostics in
  fold_left (fun acc child => traverse text child acc) (children n)
    diagnostics.

Definition _find_syntax_errors (node : Node) (text : str) : list Diagnostic :=
  traverse text node [].

Definition parse_failed_diagnostic : Diagnostic :=
  mkDiagnostic (mkRange (mkPosition 0 0) (mkPosition 0 0)) Error
    (lit "Failed to parse Verilog code - tree-sitter parser not available").

Definition _get_diagnostics (tree : option Tree) (text : str)
  : list Diagnostic :=
  match tree with
  | None => [parse_failed_diagnostic]
  | Some tree => [] ++ _find_syntax_errors (root_node tree) text
  end.

Definition _analyze_document (self : SystemVerilogLanguageServer)
  (text : str) : list Diagnostic :=
  let tree := _parse self text in
  _get_diagnostics tree text.

(** *** The traversal under the recursion limit *)

(** [traverse] with the frames it may still use: each nested call takes
    one, and a call with none left raises. *)
Fixpoint traverse_within (frames : nat) (text : str) (n : Node)
  (diagnostics : list Diagnostic) : res (list Diagnostic) :=
  match frames with
  | 0 => Raise RecursionError
  | S frames' =>
      let diagnostics :=
        if decide (type n = "ERROR"%string) then
          diagnostics ++ [error_diagnostic text n]
        else if is_missing n then
          diagnostics ++ [missing_diagnostic n]
        else diagnostics in
      (fix for_children (cs : list Node) (diagnostics : list Diagnostic)
         : res (list Diagnostic) :=
         match cs with
         | [] => Ok diagnostics
         | child :: cs' =>
             diagnostics ← traverse_within frames' text child diagnostics;
             for_children cs' diagnostics
         end) (children n) diagnostics
  end.

Definition _find_syntax_errors_within (frames : nat) (node : Node)
  (text : str) : res (list Diagnostic) :=
  traverse_within frames text node [].

Definition _get_diagnostics_within (frames : nat) (tree : option Tree)
  (text : str) : res (list Diagnostic) :=
  match tree with
  | None => Ok [parse_failed_diagnostic]
  | Some tree =>
      found ← _find_syntax_errors_within frames (root_node tree) text;
      Ok ([] ++ found)
  end.

(** [_analyze_document] as a handler calls it. *)
Definition _analyze_document_within (self : SystemVerilogLanguageServer)
  (text : str) : res (list Diagnostic) :=
  let tree := _parse self text in
  _get_diagnostics_within (frames self) tree text.

(** ** Protocol handlers *)

(** A [textDocument/publishDiagnostics] notification. *)
Abbreviation Publish := (string * list Diagnostic)%type (only parsing).

Definition set_document (ls : SystemVerilogLanguageServer) (uri : string)
  (text : str) : SystemVerilogLanguageServer :=
  mkServer (parser_parse ls) (frames ls) (<[uri := text]> (documents ls)).

(** The end of both handlers: analyse the stored text and publish. *)
Definition analyze_and_publish (ls : SystemVerilogLanguageServer)
  (uri : string) (text : str)
  : SystemVerilogLanguageServer * res (list Publish) :=
  match _analyze_document_within ls text with
  | Ok diagnostics => (ls, Ok [(uri, diagnostics)])
  | Raise e => (ls, Raise e)
  end.

(** Each handler returns the server as the call leaves it and either the
    notifications it sent or the exception it raised. *)
Definition did_open (ls : SystemVerilogLanguageServer) (uri : string)
  (text : str) : SystemVerilogLanguageServer * res (list Publish) :=
  let ls := set_document ls uri text in
  analyze_and_publish ls uri text.

(** The text [did_change] computes before it touches the store. *)
Definition changed_text (current_text : str)
  (first_change : TextDocumentContentChangeEvent)
  (content_changes : list TextDocumentContentChangeEvent) : res str :=
  range ← get_range first_change;
  match range with
  | None => Ok (change_text first_change)
  | Some _ => _apply_incremental_changes current_text content_changes
  end.

Definition did_change (ls : SystemVerilogLanguageServer) (uri : string)
  (content_changes : list TextDocumentContentChangeEvent)
  : SystemVerilogLanguageServer * res (list Publish) :=
  match content_changes with
  | [] => (ls, Ok [])
  | first_change :: _ =>
      let current_text := default [] (documents ls !! uri) in
      match changed_text current_text first_change content_changes with
      | Raise e => (ls, Raise e)
      | Ok new_text =>
          let ls := set_document ls uri new_text in
          analyze_and_publish ls uri new_text
      end
  end.

(** [initialize]: the capabilities are fixed, whatever the parameters. *)
Inductive TextDocumentSyncKind : Set := SyncNone | SyncFull | SyncIncremental.

Record TextDocumentSyncOptions : Set := mkSyncOptions {
  open_close : bool;
  sync_change : TextDocumentSyncKind;
  save : bool
}.

Record DiagnosticProvider : Set := mkDiagnosticProvider {
  inter_file_dependencies : bool;
  workspace_diagnostics : bool
}.

Record ServerCapabilities : Set := mkCapabilities {
  text_document_sync : TextDocumentSyncOptions;
  diagnostic_provider : DiagnosticProvider
}.

Record InitializeResult : Set := mkInitializeResult {
  capabilities : ServerCapabilities
}.

Definition initialize {InitializeParams : Type}
  (ls : SystemVerilogLanguageServer) (params : InitializeParams)
  : InitializeResult :=
  mkInitializeResult
    (mkCapabilities (mkSyncOptions true SyncFull false)
                    (mkDiagnosticProvider false false)).

(** ** Vocabulary of the specification *)

(** The lines, each followed by its newline. *)
Definition terminated (lines : list str) : str :=
  concat ((fun l => l ++ [NL]) <$> lines).

(** The offset in ['\n'.join(lines)] of character [c] of line [l]. *)
Definition offset (lines : list str) (l c : nat) : nat :=
  length (terminated (take l lines)) + c.

(** No element of a keyed list is followed by one with a greater key. *)
Definition descending {A} (l : list ((nat * nat) * A)) : Prop :=
  Sorted (fun x y => key_ltb x.1 y.1 = false) l.

(** A range edit whose start and end lines differ. *)
Definition multi_line (c : TextDocumentContentChangeEvent) : Prop :=
  exists r, change_range c = Some r
            /\ line (range_start r) <> line (range_end r).

(** A range edit whose start and end lines are the same. *)
Definition single_line (c : TextDocumentContentChangeEvent) : Prop :=
  exists r, change_range c = Some r
            /\ line (range_start r) = line (range_end r).

(** The start position of a change with a range, the sort key. *)
Definition start_of (c : TextDocumentContentChangeEvent) : nat * nat :=
  match change_range c with
  | Some r => (line (range_start r), character (range_start r))
  | None => (0, 0)
  end.

(** The text has a code point of the surrogate block. *)
Definition has_surrogate (text : str) : bool :=
  existsb (fun c => (0xD800 <=? c)%N && (c <? 0xE000)%N) text.

(** The number of nodes on the longest path from the node down. *)
Fixpoint depth (n : Node) : nat :=
  S (foldr Nat.max 0 (depth <$> children n)).

(** The node has the parser's sentinel error type. *)
Definition is_error (n : Node) : bool := bool_decide (type n = "ERROR"%string).

(** The node is tagged missing without being of the error type. *)
Definition missing_only (n : Node) : bool := negb (is_error n) && is_missing n.

(** The nodes of a tree, parent before children, siblings in order. *)
Fixpoint preorder (n : Node) : list Node :=
  n :: flat_map preorder (children n).

(** What one visit of [traverse] appends for the node itself. *)
Definition own_diagnostics (text : str) (n : Node) : list Diagnostic :=
  if is_error n then [error_diagnostic text n]
  else if is_missing n then [missing_diagnostic n]
  else [].

(** The error-type nodes of a tree, in pre-order. *)
Definition error_nodes (root : Node) : list Node :=
  filter (fun n => type n = "ERROR"%string) (preorder root).

(** No node of the tree is tagged missing without being of the error type. *)
Definition no_missing_only (root : Node) : bool :=
  forallb (fun n => negb (missing_only n)) (preorder root).

(** The node gets a diagnostic of its own. *)
Definition flagged (n : Node) : bool := is_error n || is_missing n.

(** Every code point of the text is encoded as one byte. *)
Definition is_ascii (text : str) : bool :=
  forallb (fun c => (c <? 0x80)%N) text.

(** ** Sample values *)

Definition leaf (ty : string) (sb eb : nat) (sp ep : nat * nat)
  (missing : bool) : Node :=
  mkNode ty sb eb sp ep missing false [].

(** A parser that always raises, and one that answers a fixed tree. *)
Definition failing_parser : bytes -> res Tree := fun _ => Raise ParserError.

Definition constant_parser (t : Tree) : bytes -> res Tree := fun _ => Ok t.

Definition five_lines : str :=
  join [lit "module m;"; lit "  wire a;"; lit "  wire b;"; lit "  wire c;";
        lit "endmodule"].

(** [module m; endmodule] followed by a stray [;;]: one error node. *)
Definition sample_text : str := lit "module m; endmodule ;;".

Definition sample_tree : Tree :=
  mkTree (mkNode "source_file" 0 22 (0, 0) (0, 22) false true
    [ mkNode "module_declaration" 0 19 (0, 0) (0, 19) false false
        [ leaf "module" 0 6 (0, 0) (0, 6) false;
          leaf "simple_identifier" 7 8 (0, 7) (0, 8) false;
          leaf ";" 8 9 (0, 8) (0, 9) false;
          leaf "endmodule" 10 19 (0, 10) (0, 19) false ];
      leaf "ERROR" 20 22 (0, 20) (0, 22) false ]).

(** [module m;] with the [endmodule] keyword inferred as missing. *)
Definition missing_tree : Tree :=
  mkTree (mkNode "source_file" 0 9 (0, 0) (0, 9) false true
    [ leaf "module" 0 6 (0, 0) (0, 6) false;
      leaf "simple_identifier" 7 8 (0, 7) (0, 8) false;
      leaf ";" 8 9 (0, 8) (0, 9) false;
      leaf "endmodule" 9 9 (0, 9) (0, 9) true ]).

Definition sample_server : SystemVerilogLanguageServer :=
  mkServer (constant_parser sample_tree) 900
    {[ "file:///m.sv"%string := sample_text ]}.

Definition failing_server : SystemVerilogLanguageServer :=
  mkServer failing_parser 900 ∅.

(** A server whose parser answers [sample_tree], three nodes deep, with
    frames for two. *)
Definition shallow_server : SystemVerilogLanguageServer :=
  mkServer (constant_parser sample_tree) 2 ∅.

(** Two edits of [five_lines], the first wholly above the second. *)
Definition edit_top : Range := mkRange (mkPosition 0 7) (mkPosition 1 8).

Definition edit_bottom : Range := mkRange (mkPosition 3 2) (mkPosition 4 0).

(** An error node that is also tagged missing. *)
Definition error_missing_leaf : Node :=
  leaf "ERROR" 20 22 (0, 20) (0, 22) true.

(** * Properties *)

(** ** The result monad *)

Lemma bind_Ok {A B} (a : A) (f : A -> res B) : Ok a ≫= f = f a.
Proof. reflexivity. Qed.

Lemma bind_Raise {A B} (e : exn) (f : A -> res B) : Raise e ≫= f = Raise e.
Proof. reflexivity. Qed.

Lemma ret_Ok {A} (a : A) : mret a = Ok a.
Proof. reflexivity. Qed.

Ltac res_simpl := cbv zeta; rewrite ?bind_Ok, ?bind_Raise, ?ret_Ok.

(** ** Splitting and joining lines *)

Lemma split_nonempty (s : str) : split s <> [].
Proof.
  induction s as [|c s IH]; simpl; [done|].
  destruct (N.eqb c NL); [done|].
  destruct (split s); done.
Qed.

Lemma split_length_pos (s : str) : 0 < length (split s).
Proof.
  pose proof (split_nonempty s). destruct (split s); simpl; [done | lia].
Qed.

Lemma join_cons (l : str) (ls : list str) :
  ls <> [] -> join (l :: ls) = l ++ NL :: join ls.
Proof. destruct ls; done. Qed.

Lemma join_split (s : str) : join (split s) = s.
Proof.
  induction s as [|c s IH]; [done|].
  pose proof (split_nonempty s) as Hne.
  cbn [split]. destruct (N.eqb c NL) eqn:Hc.
  - apply N.eqb_eq in Hc. subst c.
    rewrite join_cons by done. by rewrite IH.
  - destruct (split s) as [|l ls]; [done|].
    destruct ls as [|l' ls]; simpl in *; by rewrite IH.
Qed.

Lemma join_cons_r (x : str) (ys : list str) :
  join (x :: ys) = x ++ join ([] :: ys).
Proof. destruct ys; cbn; by rewrite ?app_nil_r. Qed.

Lemma terminated_cons (x : str) (xs : list str) :
  terminated (x :: xs) = x ++ NL :: terminated xs.
Proof. unfold terminated. cbn. by rewrite <- (assoc_L (++)). Qed.

Lemma join_app_l (xs ys : list str) :
  ys <> [] -> join (xs ++ ys) = terminated xs ++ join ys.
Proof.
  intros Hys. induction xs as [|x xs IH]; [done|].
  cbn [app]. rewrite join_cons by (by destruct xs, ys).
  by rewrite IH, terminated_cons, <- (assoc_L (++)).
Qed.

Lemma join_app_r (xs ys : list str) :
  xs <> [] -> join (xs ++ ys) = join xs ++ join ([] :: ys).
Proof.
  intros Hxs. induction xs as [|x xs IH]; [done|].
  destruct xs as [|x' xs]; [apply join_cons_r|].
  cbn [app] in *. rewrite join_cons by done.
  rewrite (join_cons x (x' :: xs)) by done.
  by rewrite IH, <- (assoc_L (++)).
Qed.

(** The text around a position: what precedes it and what follows it. *)
Lemma join_at_position (lines : list str) (i : nat) (pre post : str) :
  lines !! i = Some (pre ++ post) ->
  take (offset lines i (length pre)) (join lines)
  = terminated (take i lines) ++ pre
  /\ drop (offset lines i (length pre)) (join lines)
     = post ++ join ([] :: drop (S i) lines).
Proof.
  intros Hi.
  assert (join lines
          = (terminated (take i lines) ++ pre)
            ++ post ++ join ([] :: drop (S i) lines)) as ->.
  { rewrite <- (take_drop_middle lines i (pre ++ post)) at 1 by done.
    rewrite join_app_l by done.
    rewrite join_cons_r. by rewrite <- !(assoc_L (++)). }
  assert (offset lines i (length pre)
          = length (terminated (take i lines) ++ pre)) as ->.
  { unfold offset. by rewrite length_app. }
  by rewrite take_app_length, drop_app_length.
Qed.

(** ** Reading the range of a change *)

Lemma get_range_Some (c : TextDocumentContentChangeEvent) (r : Range) :
  change_range c = Some r -> get_range c = Ok (Some r).
Proof. destruct c; cbn; [by intros -> | done]. Qed.

Lemma sort_key_change_range (c : TextDocumentContentChangeEvent) :
  sort_key c = match change_range c with
               | None => Raise AttributeError
               | Some r => Ok (line (range_start r), character (range_start r))
               end.
Proof. by destruct c. Qed.

(** ** The sort of the batch *)

Lemma sorted_reverse_nil : sorted_reverse [] = Ok [].
Proof. reflexivity. Qed.

Lemma sorted_reverse_singleton (r : Range) (s : str) :
  sorted_reverse [mkChange (Some r) s] = Ok [mkChange (Some r) s].
Proof. reflexivity. Qed.

(** A change without a range anywhere in the batch makes the sort key
    raise, before the loop is entered. *)
Lemma sorted_reverse_no_range (cs : list TextDocumentContentChangeEvent) :
  Exists (fun c => change_range c = None) cs ->
  sorted_reverse cs = Raise AttributeError.
Proof.
  unfold sorted_reverse. intros H.
  assert (mapM (fun c => k ← sort_key c; mret (k, c)) cs
          = Raise AttributeError) as ->; [|done].
  induction H as [c cs Hc | c cs _ IH].
  - cbn [mapM]. rewrite sort_key_change_range. by rewrite Hc.
  - cbn [mapM]. rewrite IH, sort_key_change_range.
    by destruct (change_range c).
Qed.

Lemma key_ltb_asym (a b : nat * nat) :
  key_ltb a b = true -> key_ltb b a = false.
Proof.
  unfold key_ltb. destruct a as [a1 a2], b as [b1 b2]. cbn [fst snd].
  rewrite orb_true_iff, andb_true_iff, orb_false_iff, andb_false_iff.
  rewrite !Nat.ltb_lt, !Nat.ltb_ge, Nat.eqb_eq, Nat.eqb_neq. lia.
Qed.

Lemma insert_desc_perm {A} (x : (nat * nat) * A) (l : list ((nat * nat) * A)) :
  insert_desc x l ≡ₚ x :: l.
Proof.
  induction l as [|y l IH]; [done|].
  cbn [insert_desc]. destruct (key_ltb x.1 y.1); [|done].
  by rewrite IH, Permutation_swap.
Qed.

Lemma sort_desc_perm {A} (l : list ((nat * nat) * A)) :
  foldr insert_desc [] l ≡ₚ l.
Proof.
  induction l as [|x l IH]; [done|].
  cbn [foldr]. by rewrite insert_desc_perm, IH.
Qed.

Lemma insert_desc_descending {A} (x : (nat * nat) * A)
  (l : list ((nat * nat) * A)) :
  descending l -> descending (insert_desc x l).
Proof.
  unfold descending. induction 1 as [|y l Hl IH Hy]; cbn [insert_desc].
  - by repeat constructor.
  - destruct (key_ltb x.1 y.1) eqn:Hxy.
    + constructor; [done|]. destruct Hy as [|z l Hz]; cbn [insert_desc].
      * constructor. by apply key_ltb_asym.
      * destruct (key_ltb x.1 z.1); constructor;
          [done | by apply key_ltb_asym].
    + by repeat constructor.
Qed.

Lemma sort_desc_descending {A} (l : list ((nat * nat) * A)) :
  descending (foldr insert_desc [] l).
Proof.
  induction l; cbn [foldr]; [constructor | by apply insert_desc_descending].
Qed.

(** When every change has a range the sort succeeds, and its result is a
    rearrangement of the batch. *)
Lemma sorted_reverse_ranged (cs : list TextDocumentContentChangeEvent) :
  Forall (fun c => is_Some (change_range c)) cs ->
  exists l, sorted_reverse cs = Ok l /\ l ≡ₚ cs.
Proof.
  intros H. unfold sorted_reverse.
  assert (exists keyed,
             mapM (fun c => k ← sort_key c; mret (k, c)) cs = Ok keyed
             /\ keyed.*2 = cs) as (keyed & -> & Hk).
  { induction H as [|c cs [r Hr] _ (keyed & IH & Hk)]; [by exists []|].
    exists ((line (range_start r), character (range_start r), c) :: keyed).
    cbn [mapM]. rewrite IH, sort_key_change_range, Hr.
    split; [done|]. cbn. by rewrite Hk. }
  res_simpl. eexists. split; [done|].
  by rewrite sort_desc_perm, Hk.
Qed.

(** ** The edit applicator *)

(** C10. With no edits the applicator is the identity on texts: splitting on
    the newline and joining again gives the text back. *)
Theorem apply_no_changes_identity (text : str) :
  join (split text) = text
  /\ _apply_incremental_changes text [] = Ok text.
Proof.
  split; [apply join_split|].
  unfold _apply_incremental_changes. rewrite sorted_reverse_nil.
  res_simpl. cbn [apply_loop]. by rewrite join_split.
Qed.

(** C6 (as the code has it). On an empty batch the applicator raises
    nothing, no [InvalidEditError] either: it returns the current text. *)
Theorem apply_empty_batch_returns (text : str) :
  raises (_apply_incremental_changes text []) = false
  /\ (forall e, _apply_incremental_changes text [] <> Raise e)
  /\ exists result,
       _apply_incremental_changes text [] = Ok result /\ result = text.
Proof.
  unfold _apply_incremental_changes. rewrite sorted_reverse_nil.
  res_simpl. cbn [apply_loop raises]. split_and!; [done..|].
  eexists. split; [done | apply join_split].
Qed.

(** C6 as stated fails: the empty batch on the text [module m;] does not
    fail. *)
Lemma apply_empty_batch_not_error :
  ~ (exists e, _apply_incremental_changes (lit "module m;") [] = Raise e).
Proof. intros [e He]. vm_compute in He. discriminate. Qed.

(** C1 at the code. A batch made of one change without a range raises
    [AttributeError] in the sort key, whatever the texts: the [return
    change.text] of the loop is never reached. *)
Theorem apply_full_replace_raises (T S : str) :
  _apply_incremental_changes T [FullReplace S] = Raise AttributeError
  /\ _apply_incremental_changes T [mkChange None S] = Raise AttributeError.
Proof.
  unfold _apply_incremental_changes.
  rewrite !sorted_reverse_no_range; [done|by apply Exists_cons_hd..].
Qed.

(** The single-line branch indexes [lines] without a guard. *)
Lemma apply_single_line_out_of_range (text : str) (sl sc ec : nat) (s : str) :
  length (split text) <= sl ->
  _apply_incremental_changes text [RangeReplace sl sc sl ec s]
  = Raise IndexError.
Proof.
  intros Hlen. unfold _apply_incremental_changes, RangeReplace.
  rewrite sorted_reverse_singleton. res_simpl.
  cbn [apply_loop get_range change_text]; res_simpl.
  unfold apply_range. cbn [line character range_start range_end].
  rewrite decide_True by done.
  unfold getitem. by rewrite lookup_ge_None_2.
Qed.

(** The multi-line branch guards both indexings and the slice assignment
    clamps: it never raises. *)
Lemma apply_range_multi_line_ok (lines : list str) (r : Range) (s : str) :
  line (range_start r) <> line (range_end r) ->
  exists lines', apply_range lines r s = Ok lines'.
Proof.
  intros Hne. unfold apply_range. cbv zeta. rewrite decide_False by done.
  unfold getitem.
  destruct (decide (line (range_start r) < length lines)) as [H1|H1].
  - apply lookup_lt_is_Some_2 in H1 as [l1 ->].
    destruct (decide (line (range_end r) < length lines)) as [H2|H2].
    + apply lookup_lt_is_Some_2 in H2 as [l2 ->]. res_simpl. by eexists.
    + res_simpl. by eexists.
  - destruct (decide (line (range_end r) < length lines)) as [H2|H2].
    + apply lookup_lt_is_Some_2 in H2 as [l2 ->]. res_simpl. by eexists.
    + res_simpl. by eexists.
Qed.

(** Past the last line, a multi-line edit appends the lines of its text. *)
Lemma apply_range_beyond_appends (lines : list str) (r : Range) (s : str) :
  line (range_start r) <> line (range_end r) ->
  length lines <= line (range_start r) ->
  length lines <= line (range_end r) ->
  apply_range lines r s = Ok (lines ++ split s).
Proof.
  intros Hne H1 H2. unfold apply_range. cbv zeta.
  rewrite decide_False by done. rewrite !decide_False by lia.
  res_simpl. unfold slice_assign.
  rewrite take_ge by done. rewrite drop_ge by lia.
  by rewrite !app_nil_r.
Qed.

Lemma apply_loop_multi_line_ok (cs : list TextDocumentContentChangeEvent) :
  Forall multi_line cs ->
  forall lines, exists t, apply_loop lines cs = Ok t.
Proof.
  induction 1 as [|c cs (r & Hr & Hne) _ IH]; intros lines.
  - by eexists.
  - cbn [apply_loop]. rewrite (get_range_Some _ _ Hr). res_simpl.
    destruct (apply_range_multi_line_ok lines r (change_text c) Hne)
      as [lines' ->].
    res_simpl. apply IH.
Qed.

(** A batch of multi-line edits returns a text, wherever its lines point. *)
Lemma apply_multi_line_batch_ok (text : str)
  (cs : list TextDocumentContentChangeEvent) :
  Forall multi_line cs ->
  exists t, _apply_incremental_changes text cs = Ok t.
Proof.
  intros H. unfold _apply_incremental_changes.
  destruct (sorted_reverse_ranged cs) as (l & -> & Hl).
  { eapply Forall_impl; [done|]. intros c (r & -> & _). by eexists. }
  res_simpl. apply apply_loop_multi_line_ok. by rewrite Hl.
Qed.

(** C2 at the code. On the one-line text [a], the single-line edit at line 3
    raises [IndexError]. *)
Theorem apply_single_line_beyond_raises :
  _apply_incremental_changes (lit "a") [RangeReplace 3 0 3 0 (lit "x")]
  = Raise IndexError.
Proof. reflexivity. Qed.

(** C9. A single in-bounds range edit. On one line [pre ++ mid ++ post],
    with [mid] the part between the two character offsets, the line becomes
    [pre ++ s ++ post] and the other lines are kept. Over several lines, the
    part [pre1] of the start line before the start offset and the part
    [post2] of the end line from the end offset on are kept around the
    edit's text, and the lines of that string stand in for the lines
    start..end. *)
Theorem apply_in_bounds_range_edit (text s : str) :
  let lines := split text in
  (forall sl pre mid post,
     lines !! sl = Some (pre ++ mid ++ post) ->
     _apply_incremental_changes text
       [RangeReplace sl (length pre) sl (length (pre ++ mid)) s]
     = Ok (join (<[sl := pre ++ s ++ post]> lines)))
  /\ (forall sl el pre1 mid1 pre2 post2,
       sl < el ->
       lines !! sl = Some (pre1 ++ mid1) ->
       lines !! el = Some (pre2 ++ post2) ->
       _apply_incremental_changes text
         [RangeReplace sl (length pre1) el (length pre2) s]
       = Ok (join (take sl lines
                   ++ split (pre1 ++ s ++ post2)
                   ++ drop (S el) lines))).
Proof.
  cbv zeta. split.
  - intros sl pre mid post H.
    unfold _apply_incremental_changes, RangeReplace.
    rewrite sorted_reverse_singleton. res_simpl.
    cbn [apply_loop get_range change_text]; res_simpl. unfold apply_range.
    cbn [line character range_start range_end].
    rewrite decide_True by done.
    unfold getitem. rewrite H. res_simpl. cbn [apply_loop].
    rewrite take_app_length.
    by rewrite (assoc_L (++) pre mid post), drop_app_length.
  - intros sl el pre1 mid1 pre2 post2 Hlt H1 H2.
    unfold _apply_incremental_changes, RangeReplace.
    rewrite sorted_reverse_singleton. res_simpl.
    cbn [apply_loop get_range change_text]; res_simpl. unfold apply_range.
    cbn [line character range_start range_end].
    rewrite decide_False by lia.
    rewrite !decide_True by (by eapply lookup_lt_Some).
    unfold getitem. rewrite H1, H2. res_simpl. cbn [apply_loop].
    rewrite take_app_length, drop_app_length. unfold slice_assign.
    by replace (sl `max` (el + 1)) with (S el) by lia.
Qed.

(** A range edit replaces the text between its two positions: the result is
    the text before the start position, the edit's text, and the text from
    the end position on. *)
Lemma apply_range_edit_splices_text (text s : str) :
  let lines := split text in
  (forall sl pre mid post,
     lines !! sl = Some (pre ++ mid ++ post) ->
     _apply_incremental_changes text
       [RangeReplace sl (length pre) sl (length (pre ++ mid)) s]
     = Ok (take (offset lines sl (length pre)) text
           ++ s ++ drop (offset lines sl (length (pre ++ mid))) text))
  /\ (forall sl el pre1 mid1 pre2 post2,
       sl < el ->
       lines !! sl = Some (pre1 ++ mid1) ->
       lines !! el = Some (pre2 ++ post2) ->
       _apply_incremental_changes text
         [RangeReplace sl (length pre1) el (length pre2) s]
       = Ok (take (offset lines sl (length pre1)) text
             ++ s ++ drop (offset lines el (length pre2)) text)).
Proof.
  cbv zeta. split.
  - intros sl pre mid post H.
    pose proof (join_at_position _ _ pre (mid ++ post) H) as [Ht _].
    pose proof H as H'. rewrite (assoc_L (++)) in H'.
    pose proof (join_at_position _ _ (pre ++ mid) post H') as [_ Hd].
    rewrite join_split in Ht, Hd. rewrite Ht, Hd. clear Ht Hd H'.
    unfold _apply_incremental_changes, RangeReplace.
    rewrite sorted_reverse_singleton. res_simpl.
    cbn [apply_loop get_range change_text]; res_simpl. unfold apply_range.
    cbn [line character range_start range_end].
    rewrite decide_True by done.
    unfold getitem. rewrite H. res_simpl. cbn [apply_loop].
    rewrite take_app_length.
    rewrite (assoc_L (++) pre mid post), drop_app_length. f_equal.
    rewrite insert_take_drop by (by eapply lookup_lt_Some).
    rewrite join_app_l by done.
    rewrite join_cons_r. by rewrite <- !(assoc_L (++)).
  - intros sl el pre1 mid1 pre2 post2 Hlt H1 H2.
    pose proof (join_at_position _ _ _ _ H1) as [Ht _].
    pose proof (join_at_position _ _ _ _ H2) as [_ Hd].
    rewrite join_split in Ht, Hd. rewrite Ht, Hd. clear Ht Hd.
    unfold _apply_incremental_changes, RangeReplace.
    rewrite sorted_reverse_singleton. res_simpl.
    cbn [apply_loop get_range change_text]; res_simpl. unfold apply_range.
    cbn [line character range_start range_end].
    rewrite decide_False by lia.
    rewrite !decide_True by (by eapply lookup_lt_Some).
    unfold getitem. rewrite H1, H2. res_simpl. cbn [apply_loop].
    rewrite take_app_length, drop_app_length. unfold slice_assign.
    replace (sl `max` (el + 1)) with (S el) by lia. f_equal.
    pose proof (split_nonempty (pre1 ++ s ++ post2)) as Hne.
    rewrite join_app_l by (by destruct (split (pre1 ++ s ++ post2))).
    rewrite join_app_r by done. rewrite join_split.
    by rewrite <- !(assoc_L (++)).
Qed.

(** ** The diagnostic extractor *)

Lemma Node_ind (P : Node -> Prop) :
  (forall n, Forall P (children n) -> P n) -> forall n, P n.
Proof.
  intros H. fix IH 1. intros n. apply H.
  destruct n as [ty sb eb sp ep m he cs]. cbn [children].
  induction cs as [|c cs IHcs]; constructor; [apply IH | apply IHcs].
Qed.

Lemma traverse_unfold (text : str) (n : Node) (acc : list Diagnostic) :
  traverse text n acc
  = fold_left (fun acc child => traverse text child acc) (children n)
      (acc ++ own_diagnostics text n).
Proof.
  destruct n as [ty sb eb sp ep m he cs]. cbn [traverse children].
  f_equal. unfold own_diagnostics, is_error. cbn [type is_missing].
  destruct (decide (ty = "ERROR"%string)) as [He|He].
  - by rewrite bool_decide_eq_true_2.
  - rewrite bool_decide_eq_false_2 by done.
    destruct m; [done | by rewrite app_nil_r].
Qed.

Lemma flat_map_preorder {B} (f : Node -> list B) (cs : list Node) :
  flat_map f (flat_map preorder cs)
  = flat_map (fun c => flat_map f (preorder c)) cs.
Proof.
  induction cs as [|c cs IH]; [done|].
  cbn [flat_map]. by rewrite flat_map_app, IH.
Qed.

Lemma preorder_unfold (n : Node) :
  preorder n = n :: flat_map preorder (children n).
Proof. by destruct n. Qed.

(** The diagnostics are appended node by node, in pre-order. *)
Lemma traverse_preorder (text : str) (n : Node) :
  forall acc,
    traverse text n acc = acc ++ flat_map (own_diagnostics text) (preorder n).
Proof.
  induction n as [n IH] using Node_ind. intros acc.
  rewrite traverse_unfold, preorder_unfold. cbn [flat_map].
  rewrite flat_map_preorder, (assoc_L (++)).
  generalize (acc ++ own_diagnostics text n). clear acc.
  induction IH as [|c cs Hc _ IHcs]; intros acc.
  - cbn. by rewrite app_nil_r.
  - cbn [fold_left flat_map]. by rewrite Hc, IHcs, (assoc_L (++)).
Qed.

Lemma find_syntax_errors_preorder (node : Node) (text : str) :
  _find_syntax_errors node text
  = flat_map (own_diagnostics text) (preorder node).
Proof. unfold _find_syntax_errors. by rewrite traverse_preorder. Qed.

Lemma find_syntax_errors_children (node : Node) (text : str) :
  _find_syntax_errors node text
  = own_diagnostics text node
    ++ flat_map (fun c => _find_syntax_errors c text) (children node).
Proof.
  rewrite find_syntax_errors_preorder, preorder_unfold. cbn [flat_map].
  rewrite flat_map_preorder. f_equal.
  apply flat_map_ext. intros c. by rewrite find_syntax_errors_preorder.
Qed.

Lemma is_error_true (n : Node) :
  is_error n = true <-> type n = "ERROR"%string.
Proof. unfold is_error. apply bool_decide_eq_true. Qed.

(** Without missing-only nodes, the diagnostics are those of the error
    nodes. *)
Lemma own_diagnostics_errors (text : str) (l : list Node) :
  forallb (fun n => negb (missing_only n)) l = true ->
  flat_map (own_diagnostics text) l
  = error_diagnostic text <$> filter (fun n => type n = "ERROR"%string) l.
Proof.
  induction l as [|n l IH]; [done|].
  cbn [forallb flat_map]. rewrite andb_true_iff. intros [Hn Hl].
  rewrite filter_cons, IH by done.
  unfold own_diagnostics, missing_only in *.
  destruct (decide (type n = "ERROR"%string)) as [He|He].
  - apply is_error_true in He. by rewrite He.
  - destruct (is_error n) eqn:Hie; [by apply is_error_true in Hie|].
    by destruct (is_missing n).
Qed.

(** On ASCII text the byte offsets of the parser are character offsets:
    the text is its own encoding, and so is every slice of it. *)
Lemma utf8_char_ascii (c : char) :
  (c <? 0x80)%N = true -> utf8_char c = Ok [c].
Proof. unfold utf8_char. by intros ->. Qed.

Lemma utf8_ascii (text : str) : is_ascii text = true -> utf8 text = Ok text.
Proof.
  unfold utf8. intros H.
  assert (mapM utf8_char text = Ok ((fun c => [c]) <$> text)) as ->.
  { induction text as [|c text IH]; [done|].
    cbn [is_ascii forallb] in H. apply andb_true_iff in H as [Hc H].
    cbn [mapM]. rewrite utf8_char_ascii by done. res_simpl.
    rewrite IH by done. by res_simpl. }
  res_simpl. f_equal. induction text as [|c text IH]; [done|].
  cbn. f_equal. apply IH. cbn [is_ascii forallb] in H.
  by apply andb_true_iff in H as [_ H].
Qed.

Lemma is_ascii_take (n : nat) (text : str) :
  is_ascii text = true -> is_ascii (take n text) = true.
Proof.
  revert n. induction text as [|c text IH]; intros [|n]; try done.
  cbn. rewrite !andb_true_iff. intros [Hc H]. split; [done|]. by apply IH.
Qed.

Lemma is_ascii_drop (n : nat) (text : str) :
  is_ascii text = true -> is_ascii (drop n text) = true.
Proof.
  revert n. induction text as [|c text IH]; intros [|n]; try done.
  cbn [drop is_ascii forallb]. rewrite andb_true_iff.
  intros [_ H]. by apply IH.
Qed.

Lemma utf8_ascii_slice (text : str) (a b : nat) :
  is_ascii text = true -> utf8 (slice text a b) = Ok (slice text a b).
Proof.
  intros H. apply utf8_ascii. unfold slice.
  by apply is_ascii_take, is_ascii_drop.
Qed.

(** C3 (as the code has it). On ASCII text and a tree without missing-only
    nodes, extraction yields one diagnostic per error-type node, nested or
    not, in pre-order: each spans its node, has severity [Error], and its
    message is [Syntax error: '<substring>'] with the source bytes from the
    node's start byte to its end byte as substring. *)
Theorem extract_one_diagnostic_per_error_node (tree : Tree) (text : str) :
  is_ascii text = true ->
  no_missing_only (root_node tree) = true ->
  let errors := error_nodes (root_node tree) in
  let diagnostics := _get_diagnostics (Some tree) text in
  length diagnostics = length errors
  /\ exists source : bytes,
       utf8 text = Ok source
       /\ Forall2 (fun n d =>
            diag_range d
            = mkRange (mkPosition (start_point n).1 (start_point n).2)
                      (mkPosition (end_point n).1 (end_point n).2)
            /\ severity d = Error
            /\ exists substring,
                 utf8 substring
                 = Ok (slice source (start_byte n) (end_byte n))
                 /\ message d
                    = lit "Syntax error: '" ++ substring ++ lit "'")
          errors diagnostics.
Proof.
  intros Hascii Hnm. cbv zeta.
  unfold _get_diagnostics, error_nodes. rewrite app_nil_l.
  rewrite find_syntax_errors_preorder, own_diagnostics_errors by done.
  split; [by rewrite length_fmap|].
  exists text. split; [by apply utf8_ascii|].
  apply Forall2_fmap_r, Forall_Forall2_diag, Forall_forall.
  intros n _. split_and!; try done.
  exists (slice text (start_byte n) (end_byte n)).
  split; [by apply utf8_ascii_slice | done].
Qed.

(** C3 as stated fails: [missing_tree] has no error-type node, and
    extraction yields one diagnostic, for its missing [endmodule]. *)
Lemma extract_missing_node_counted :
  length (_get_diagnostics (Some missing_tree) (lit "module m;"))
  <> length (error_nodes (root_node missing_tree))
  /\ error_nodes (root_node missing_tree) = []
  /\ message <$> _get_diagnostics (Some missing_tree) (lit "module m;")
     = [lit "Missing token"].
Proof. by vm_compute. Qed.

(** Beyond ASCII the byte offsets index the code points of the text: for
    the text [é;] and an error node on its [;] (bytes 2 to 3) the message
    embeds the empty string. *)
Example extract_non_ascii_offsets :
  utf8 [233; 59]%N = Ok [195; 169; 59]%N
  /\ message (error_diagnostic [233; 59]%N
                (leaf "ERROR" 2 3 (0, 1) (0, 2) false))
     = lit "Syntax error: ''".
Proof. by vm_compute. Qed.

(** C4. A node that is both of the error type and tagged missing gets the
    error diagnostic alone: the diagnostics of its subtree are that one
    followed by those of its children's subtrees, and a node without
    children yields exactly the error diagnostic. *)
Theorem error_and_missing_single_diagnostic (n : Node) (text : str) :
  type n = "ERROR"%string ->
  is_missing n = true ->
  _find_syntax_errors n text
  = error_diagnostic text n
    :: flat_map (fun c => _find_syntax_errors c text) (children n)
  /\ (children n = [] -> _find_syntax_errors n text = [error_diagnostic text n])
  /\ message (error_diagnostic text n)
     = lit "Syntax error: '" ++ slice text (start_byte n) (end_byte n)
       ++ lit "'"
  /\ error_diagnostic text n <> missing_diagnostic n.
Proof.
  intros He Hm.
  assert (_find_syntax_errors n text
          = error_diagnostic text n
            :: flat_map (fun c => _find_syntax_errors c text) (children n))
    as Heq.
  { rewrite find_syntax_errors_children. unfold own_diagnostics.
    apply is_error_true in He. by rewrite He. }
  split_and!; try done.
  intros Hc. by rewrite Heq, Hc.
Qed.

(** C5. When the encoding or the parser raises, [_parse] answers [None] and
    the analysis is the one diagnostic at (0,0)-(0,0), of severity [Error],
    that says the parser failed. *)
Theorem parse_failure_single_diagnostic
  (self : SystemVerilogLanguageServer) (text : str) (e : exn) :
  (b ← utf8 text; parser_parse self b) = Raise e ->
  _parse self text = None
  /\ _get_diagnostics (_parse self text) text
     = [mkDiagnostic (mkRange (mkPosition 0 0) (mkPosition 0 0)) Error
          (lit "Failed to parse Verilog code - tree-sitter parser not available")]
  /\ _analyze_document self text = _get_diagnostics None text.
Proof.
  intros H.
  assert (_parse self text = None) as Hp by (unfold _parse; by rewrite H).
  unfold _analyze_document. by rewrite Hp.
Qed.

(** *** The traversal under the recursion limit *)

Lemma depth_unfold (n : Node) :
  depth n = S (foldr Nat.max 0 (depth <$> children n)).
Proof. by destruct n. Qed.

Lemma depth_children_le (cs : list Node) (k : nat) :
  foldr Nat.max 0 (depth <$> cs) <= k <-> Forall (fun c => depth c <= k) cs.
Proof.
  induction cs as [|c cs IH]; cbn [fmap list_fmap foldr].
  - split; [constructor | lia].
  - rewrite Forall_cons, <- IH. lia.
Qed.

Lemma traverse_within_unfold (k : nat) (text : str) (n : Node)
  (acc : list Diagnostic) :
  traverse_within (S k) text n acc
  = (fix for_children (cs : list Node) (diagnostics : list Diagnostic)
       : res (list Diagnostic) :=
       match cs with
       | [] => Ok diagnostics
       | child :: cs' =>
           diagnostics ← traverse_within k text child diagnostics;
           for_children cs' diagnostics
       end) (children n) (acc ++ own_diagnostics text n).
Proof.
  destruct n as [ty sb eb sp ep m he cs].
  cbn [traverse_within children]. f_equal.
  unfold own_diagnostics, is_error. cbn [type is_missing].
  destruct (decide (ty = "ERROR"%string)) as [He|He].
  - by rewrite bool_decide_eq_true_2.
  - rewrite bool_decide_eq_false_2 by done.
    destruct m; [done | by rewrite app_nil_r].
Qed.

(** With frames for the depth of the tree the traversal returns what
    [traverse] computes; with fewer it raises [RecursionError]. *)
Lemma traverse_within_spec (k : nat) (text : str) :
  forall (n : Node) (acc : list Diagnostic),
    traverse_within k text n acc
    = if decide (depth n <= k) then Ok (traverse text n acc)
      else Raise RecursionError.
Proof.
  induction k as [|k IH]; intros n acc.
  - rewrite decide_False; [done|]. rewrite depth_unfold. lia.
  - assert (forall cs acc,
              (fix for_children (cs : list Node)
                 (diagnostics : list Diagnostic) : res (list Diagnostic) :=
                 match cs with
                 | [] => Ok diagnostics
                 | child :: cs' =>
                     diagnostics ← traverse_within k text child diagnostics;
                     for_children cs' diagnostics
                 end) cs acc
              = if decide (Forall (fun c => depth c <= k) cs)
                then Ok (fold_left (fun acc child => traverse text child acc)
                           cs acc)
                else Raise RecursionError) as Hloop.
    { induction cs as [|c cs IHcs]; intros acc'.
      - by rewrite decide_True by constructor.
      - rewrite IH. destruct (decide (depth c <= k)) as [Hc|Hc].
        + res_simpl. rewrite IHcs. cbn [fold_left].
          destruct (decide (Forall (fun c => depth c <= k) cs)) as [Hcs|Hcs].
          * by rewrite decide_True by (by constructor).
          * rewrite decide_False; [done|]. by intros [_ ?]%Forall_cons.
        + res_simpl. rewrite decide_False; [done|].
          by intros [? _]%Forall_cons. }
    rewrite traverse_within_unfold, traverse_unfold, Hloop.
    assert (depth n <= S k <-> Forall (fun c => depth c <= k) (children n))
      as Hd.
    { rewrite depth_unfold, <- depth_children_le. lia. }
    destruct (decide (Forall (fun c => depth c <= k) (children n)))
      as [Hcs|Hcs].
    + by rewrite decide_True by (by apply Hd).
    + rewrite decide_False; [done|]. intros H. by apply Hcs, Hd.
Qed.

Lemma analyze_document_within_spec (self : SystemVerilogLanguageServer)
  (text : str) :
  _analyze_document_within self text
  = match _parse self text with
    | None => Ok [parse_failed_diagnostic]
    | Some tree =>
        if decide (depth (root_node tree) <= frames self)
        then Ok (_get_diagnostics (Some tree) text)
        else Raise RecursionError
    end.
Proof.
  unfold _analyze_document_within, _get_diagnostics_within.
  destruct (_parse self text) as [tree|]; [|done].
  unfold _find_syntax_errors_within. rewrite traverse_within_spec.
  by destruct (decide (depth (root_node tree) <= frames self)).
Qed.

(** What the analysis returns under the limit is what [_analyze_document]
    computes. *)
Lemma analyze_document_within_Ok (self : SystemVerilogLanguageServer)
  (text : str) (diagnostics : list Diagnostic) :
  _analyze_document_within self text = Ok diagnostics ->
  diagnostics = _analyze_document self text.
Proof.
  rewrite analyze_document_within_spec. unfold _analyze_document.
  destruct (_parse self text) as [tree|]; [|by intros [= <-]].
  destruct (decide (depth (root_node tree) <= frames self)); [|done].
  by intros [= <-].
Qed.


(** ** The handlers *)

Lemma analyze_and_publish_server (ls : SystemVerilogLanguageServer)
  (uri : string) (text : str) :
  (analyze_and_publish ls uri text).1 = ls.
Proof.
  unfold analyze_and_publish.
  by destruct (_analyze_document_within ls text).
Qed.

(** C7. A change notification with an empty batch returns at once: the
    server, hence the text stored under every URI, is as before, and nothing
    is published. *)
Theorem did_change_empty_batch (ls : SystemVerilogLanguageServer)
  (uri : string) :
  did_change ls uri [] = (ls, Ok [])
  /\ forall ls' published,
       did_change ls uri [] = (ls', Ok published) ->
       (forall u, documents ls' !! u = documents ls !! u) /\ published = [].
Proof.
  split; [done|]. intros ls' published H. cbn in H. by simplify_eq.
Qed.

(** C8 at the code. A change without a range, as a client sends it, has no
    [range] attribute: when it is the first of a batch the handler raises
    [AttributeError] at [first_change.range], whatever follows it, and the
    store is as before. *)
Theorem did_change_whole_document_raises (ls : SystemVerilogLanguageServer)
  (uri : string) (s : str) (rest : list TextDocumentContentChangeEvent) :
  did_change ls uri (FullReplace s :: rest) = (ls, Raise AttributeError).
Proof. reflexivity. Qed.

(** The branch for a first change without a range is taken only for an
    object with a [range] attribute that is [None]: then the text of that
    change is stored and analysed, and the rest of the batch is not looked
    at. *)
Lemma did_change_range_none_replaces (ls : SystemVerilogLanguageServer)
  (uri : string) (s : str) (rest : list TextDocumentContentChangeEvent) :
  did_change ls uri (mkChange None s :: rest)
  = analyze_and_publish (set_document ls uri s) uri s.
Proof. reflexivity. Qed.

(** ** Instances *)

Lemma apply_in_bounds_range_edit_witness :
  let text := lit "module m; endmodule" in
  let pre := lit "module m; " in
  let mid := lit "endmodule" in
  (split text !! 0 = Some (pre ++ mid ++ [])
   /\ _apply_incremental_changes text
        [RangeReplace 0 (length pre) 0 (length (pre ++ mid)) []]
      = Ok (join (<[0 := pre ++ [] ++ []]> (split text))))
  /\ (0 < 1
      /\ split five_lines !! 0 = Some (lit "module " ++ lit "m;")
      /\ split five_lines !! 1 = Some (lit "  wire a" ++ lit ";")
      /\ _apply_incremental_changes five_lines
           [RangeReplace 0 (length (lit "module ")) 1
              (length (lit "  wire a")) (lit "top")]
         = Ok (join (take 0 (split five_lines)
                     ++ split (lit "module " ++ lit "top" ++ lit ";")
                     ++ drop 2 (split five_lines)))).
Proof.
  cbv zeta. split.
  - split; [reflexivity|].
    apply (proj1 (apply_in_bounds_range_edit (lit "module m; endmodule") [])).
    reflexivity.
  - split; [lia|]. split; [reflexivity|]. split; [reflexivity|].
    apply (proj2 (apply_in_bounds_range_edit five_lines (lit "top"))
             0 1 (lit "module ") (lit "m;") (lit "  wire a") (lit ";"));
      [lia | reflexivity | reflexivity].
Defined.

Lemma extract_one_diagnostic_per_error_node_witness :
  is_ascii sample_text = true
  /\ no_missing_only (root_node sample_tree) = true
  /\ length (_get_diagnostics (Some sample_tree) sample_text)
     = length (error_nodes (root_node sample_tree)).
Proof.
  split; [reflexivity|]. split; [reflexivity|].
  apply (extract_one_diagnostic_per_error_node sample_tree sample_text);
    reflexivity.
Defined.

Lemma error_and_missing_single_diagnostic_witness :
  type error_missing_leaf = "ERROR"%string
  /\ is_missing error_missing_leaf = true
  /\ _find_syntax_errors error_missing_leaf sample_text
     = [error_diagnostic sample_text error_missing_leaf].
Proof.
  split; [reflexivity|]. split; [reflexivity|].
  apply (error_and_missing_single_diagnostic error_missing_leaf sample_text);
    reflexivity.
Defined.

Lemma parse_failure_single_diagnostic_witness :
  (b ← utf8 sample_text; parser_parse failing_server b) = Raise ParserError
  /\ _analyze_document failing_server sample_text
     = _get_diagnostics None sample_text.
Proof.
  split; [reflexivity|].
  apply (parse_failure_single_diagnostic failing_server sample_text
           ParserError).
  reflexivity.
Defined.

(** ** Examples *)

(** The sort is descending by start position and keeps the order of equal
    keys. *)
Example sorted_reverse_stable :
  sorted_reverse
    [RangeReplace 0 5 0 5 (lit "a"); RangeReplace 2 0 2 1 (lit "b");
     RangeReplace 0 5 0 6 (lit "c"); RangeReplace 1 3 1 3 (lit "d");
     RangeReplace 0 7 0 7 (lit "e")]
  = Ok [RangeReplace 2 0 2 1 (lit "b"); RangeReplace 1 3 1 3 (lit "d");
        RangeReplace 0 7 0 7 (lit "e"); RangeReplace 0 5 0 5 (lit "a");
        RangeReplace 0 5 0 6 (lit "c")].
Proof. reflexivity. Qed.

(** Two multi-line edits on different line ranges of a five-line text. *)
Example apply_two_edits :
  _apply_incremental_changes five_lines
    [RangeReplace 0 7 1 8 (lit "top;" ++ NL :: lit "  reg r");
     RangeReplace 3 2 4 0 (lit "// c" ++ [NL])]
  = Ok (join [lit "module top;"; lit "  reg r;"; lit "  wire b;";
              lit "  // c"; lit "endmodule"]).
Proof. reflexivity. Qed.

Example apply_multi_line_beyond :
  _apply_incremental_changes (lit "a") [RangeReplace 3 0 4 0 (lit "x")]
  = Ok (lit "a" ++ NL :: lit "x").
Proof. reflexivity. Qed.

(** A change without a range after a ranged one: the handler takes the
    incremental path and the applicator raises. *)
Example did_change_mixed_batch_raises :
  did_change sample_server "file:///m.sv"
    [RangeReplace 0 0 0 1 (lit "b"); FullReplace (lit "c")]
  = (sample_server, Raise AttributeError).
Proof. reflexivity. Qed.

(** A change for a URI never opened starts from the empty text. *)
Example did_change_unknown_document :
  did_change failing_server "u" [RangeReplace 0 0 0 0 (lit "x")]
  = (mkServer failing_parser 900 {[ "u"%string := lit "x" ]},
     Ok [("u"%string, [parse_failed_diagnostic])]).
Proof. reflexivity. Qed.

Example did_open_sample :
  (did_open failing_server "file:///m.sv" sample_text).2
  = Ok [("file:///m.sv"%string, [parse_failed_diagnostic])]
  /\ (did_open sample_server "file:///m.sv" sample_text).2
     = Ok [("file:///m.sv"%string,
            [mkDiagnostic (mkRange (mkPosition 0 20) (mkPosition 0 22)) Error
               (lit "Syntax error: ';;'")])]
  /\ _analyze_document sample_server sample_text
     = [mkDiagnostic (mkRange (mkPosition 0 20) (mkPosition 0 22)) Error
          (lit "Syntax error: ';;'")].
Proof. by vm_compute. Qed.

(** With frames for two levels, the tree of three makes the traversal raise
    after the text was stored. *)
Example did_open_too_deep :
  depth (root_node sample_tree) = 3
  /\ did_open shallow_server "file:///m.sv" sample_text
     = (set_document shallow_server "file:///m.sv" sample_text,
        Raise RecursionError).
Proof. by vm_compute. Qed.

(** * Further properties of the code *)

(** ** The line buffer *)

Lemma split_cons_line (c : char) (s : str) :
  c <> NL -> split (c :: s) = match split s with
                             | [] => [[c]]
                             | l :: ls => (c :: l) :: ls
                             end.
Proof. intros Hc. cbn [split]. by apply N.eqb_neq in Hc as ->. Qed.

Lemma split_app_NL (l rest : str) :
  NL ∉ l -> split (l ++ NL :: rest) = l :: split rest.
Proof.
  induction l as [|c l IH]; intros Hl.
  - cbn [app split]. by rewrite N.eqb_refl.
  - apply not_elem_of_cons in Hl as [Hc Hl].
    cbn [app]. rewrite split_cons_line by done. by rewrite IH.
Qed.

Lemma split_one_line (l : str) : NL ∉ l -> split l = [l].
Proof.
  induction l as [|c l IH]; intros Hl; [done|].
  apply not_elem_of_cons in Hl as [Hc Hl].
  rewrite split_cons_line by done. by rewrite IH.
Qed.

(** No line of a split text holds a newline. *)
Lemma split_no_NL (s : str) : Forall (fun l => NL ∉ l) (split s).
Proof.
  induction s as [|c s IH].
  - repeat constructor. apply not_elem_of_nil.
  - cbn [split]. destruct (N.eqb c NL) eqn:Hc.
    + constructor; [apply not_elem_of_nil | done].
    + apply N.eqb_neq in Hc. pose proof (split_nonempty s) as Hne.
      destruct (split s) as [|l ls]; [done|].
      apply Forall_cons in IH as [Hl Hls].
      constructor; [|done]. by apply not_elem_of_cons.
Qed.

Lemma split_join_prefix (A B : list str) :
  Forall (fun l => NL ∉ l) A -> B <> [] ->
  split (join (A ++ B)) = A ++ split (join B).
Proof.
  intros HA HB. rewrite join_app_l by done.
  induction HA as [|a A Ha _ IH]; [done|].
  rewrite terminated_cons. cbn [app].
  rewrite <- (assoc_L (++)). cbn [app].
  by rewrite split_app_NL, IH.
Qed.

(** Joining lines and splitting again gives the lines back, when there is at
    least one line and none holds a newline. *)
Theorem split_join (lines : list str) :
  lines <> [] -> Forall (fun l => NL ∉ l) lines ->
  split (join lines) = lines.
Proof.
  intros Hne H. induction H as [|l ls Hl Hls IH]; [done|].
  destruct ls as [|l' ls]; [by apply split_one_line|].
  rewrite join_cons by done. rewrite split_app_NL by done.
  by rewrite IH.
Qed.

(** ** The sort of the batch, continued *)

Lemma insert_desc_filter {A} (k : nat * nat) (x : (nat * nat) * A)
  (l : list ((nat * nat) * A)) :
  filter (fun y => y.1 = k) (insert_desc x l)
  = filter (fun y => y.1 = k) (x :: l).
Proof.
  induction l as [|y l IH]; [done|].
  cbn [insert_desc]. destruct (key_ltb x.1 y.1) eqn:Hxy; [|done].
  rewrite filter_cons, IH, !filter_cons.
  destruct (decide (x.1 = k)) as [Hx|Hx]; [|done].
  destruct (decide (y.1 = k)) as [Hy|Hy]; [|done].
  rewrite Hx, Hy in Hxy. pose proof (key_ltb_asym _ _ Hxy). congruence.
Qed.

Lemma sort_desc_filter {A} (k : nat * nat) (l : list ((nat * nat) * A)) :
  filter (fun y => y.1 = k) (foldr insert_desc [] l)
  = filter (fun y => y.1 = k) l.
Proof.
  induction l as [|x l IH]; [done|].
  cbn [foldr]. by rewrite insert_desc_filter, !filter_cons, IH.
Qed.

Lemma keyed_ranged (cs : list TextDocumentContentChangeEvent) :
  Forall (fun c => is_Some (change_range c)) cs ->
  mapM (fun c => k ← sort_key c; mret (k, c)) cs
  = Ok ((fun c => (start_of c, c)) <$> cs).
Proof.
  induction 1 as [|c cs [r Hr] _ IH]; [done|].
  cbn [mapM]. rewrite IH.
  assert (sort_key c = Ok (start_of c)) as ->
    by (rewrite sort_key_change_range; unfold start_of; by rewrite Hr).
  by res_simpl.
Qed.

Lemma filter_keyed (k : nat * nat)
  (cs : list TextDocumentContentChangeEvent) :
  (filter (fun y => y.1 = k) ((fun c => (start_of c, c)) <$> cs)).*2
  = filter (fun c => start_of c = k) cs.
Proof.
  induction cs as [|c cs IH]; [done|].
  cbn [fmap list_fmap]. rewrite !filter_cons. cbn [fst].
  destruct (decide (start_of c = k)); cbn; by rewrite <- IH.
Qed.

Lemma keyed_fst_snd
  (l : list ((nat * nat) * TextDocumentContentChangeEvent)) :
  Forall (fun y => y.1 = start_of y.2) l ->
  l = (fun c => (start_of c, c)) <$> l.*2.
Proof.
  induction 1 as [|[k c] l Hk _ IH]; [done|].
  cbn in *. by rewrite <- IH, Hk.
Qed.

Lemma sorted_reverse_spec (cs : list TextDocumentContentChangeEvent) :
  Forall (fun c => is_Some (change_range c)) cs ->
  exists l,
    sorted_reverse cs = Ok l
    /\ l ≡ₚ cs
    /\ Sorted (fun a b => key_ltb (start_of a) (start_of b) = false) l
    /\ forall k, filter (fun c => start_of c = k) l
                 = filter (fun c => start_of c = k) cs.
Proof.
  intros H. unfold sorted_reverse. rewrite keyed_ranged by done. res_simpl.
  set (keyed := (fun c => (start_of c, c)) <$> cs).
  assert (keyed.*2 = cs) as Hk.
  { unfold keyed. rewrite <- list_fmap_compose. apply list_fmap_id. }
  assert (Forall (fun y => y.1 = start_of y.2) (foldr insert_desc [] keyed))
    as Hs.
  { rewrite sort_desc_perm. unfold keyed. apply Forall_fmap, Forall_true.
    done. }
  eexists. split; [done|]. split_and!.
  - by rewrite sort_desc_perm, Hk.
  - pose proof (sort_desc_descending keyed) as Hd. unfold descending in Hd.
    revert Hd Hs. generalize (foldr insert_desc [] keyed). clear.
    induction 1 as [|y l Hl IH Hy]; intros Hs; [constructor|].
    apply Forall_cons in Hs as [Hy1 Hs]. cbn [fmap list_fmap].
    constructor; [by apply IH|].
    destruct Hy as [|z l Hz]; [constructor|].
    apply Forall_cons in Hs as [Hz1 _]. constructor. cbn.
    by rewrite <- Hy1, <- Hz1.
  - intros k. rewrite <- (filter_keyed k cs). fold keyed.
    rewrite <- (sort_desc_filter k keyed).
    rewrite <- (filter_keyed k (foldr insert_desc [] keyed).*2).
    by rewrite <- (keyed_fst_snd _ Hs).
Qed.

(** When every change has a range, the sort returns the changes of the
    batch rearranged so that no change is followed by one that starts later,
    and changes that start at the same position keep their order. *)
Theorem sorted_reverse_sorts (cs : list TextDocumentContentChangeEvent) :
  Forall (fun c => is_Some (change_range c)) cs ->
  exists l,
    sorted_reverse cs = Ok l
    /\ l ≡ₚ cs
    /\ Sorted (fun a b => key_ltb (start_of a) (start_of b) = false) l
    /\ forall k, filter (fun c => start_of c = k) l
                 = filter (fun c => start_of c = k) cs.
Proof. apply sorted_reverse_spec. Qed.

Lemma key_ltb_trans_ge (a b c : nat * nat) :
  key_ltb a b = false -> key_ltb b c = false -> key_ltb a c = false.
Proof.
  unfold key_ltb. destruct a as [a1 a2], b as [b1 b2], c as [c1 c2].
  cbn [fst snd].
  rewrite !orb_false_iff, !andb_false_iff.
  rewrite !Nat.ltb_ge, !Nat.eqb_neq. lia.
Qed.

Lemma key_ltb_antisym (a b : nat * nat) :
  key_ltb a b = false -> key_ltb b a = false -> a = b.
Proof.
  unfold key_ltb. destruct a as [a1 a2], b as [b1 b2]. cbn [fst snd].
  rewrite !orb_false_iff, !andb_false_iff.
  rewrite !Nat.ltb_ge, !Nat.eqb_neq. intros. f_equal; lia.
Qed.

Lemma NoDup_fmap_inj_on {A B} (f : A -> B) (l : list A) (x y : A) :
  NoDup (f <$> l) -> x ∈ l -> y ∈ l -> f x = f y -> x = y.
Proof.
  induction l as [|z l IH]; [by intros _ ?%elem_of_nil|].
  cbn [fmap list_fmap]. rewrite NoDup_cons, !elem_of_cons.
  intros [Hz Hl] [->|Hx] [->|Hy] Hf; [done| | |by apply IH].
  - destruct Hz. rewrite Hf. by apply list_elem_of_fmap_2.
  - destruct Hz. rewrite <- Hf. by apply list_elem_of_fmap_2.
Qed.

Lemma no_range_exists (cs : list TextDocumentContentChangeEvent) :
  ~ Forall (fun c => is_Some (change_range c)) cs ->
  Exists (fun c => change_range c = None) cs.
Proof.
  intros Hr. apply not_Forall_Exists in Hr; [|apply _].
  eapply Exists_impl; [done|]. intros c Hc. cbn in Hc.
  by destruct (change_range c); [destruct Hc|].
Qed.

(** ** The edit applicator, continued *)

(** The order in which a batch lists its changes does not matter when no two
    of them start at the same position. *)
Theorem apply_batch_order_irrelevant (text : str)
  (cs cs' : list TextDocumentContentChangeEvent) :
  cs ≡ₚ cs' ->
  NoDup (start_of <$> cs) ->
  _apply_incremental_changes text cs = _apply_incremental_changes text cs'.
Proof.
  intros Hp Hnd. unfold _apply_incremental_changes.
  destruct (decide (Forall (fun c => is_Some (change_range c)) cs))
    as [Hr|Hr].
  - assert (Forall (fun c => is_Some (change_range c)) cs') as Hr'
      by (by rewrite <- Hp).
    destruct (sorted_reverse_spec cs Hr) as (l & -> & Hl & Hs & _).
    destruct (sorted_reverse_spec cs' Hr') as (l' & -> & Hl' & Hs' & _).
    assert (l = l') as ->; [|done].
    assert (Transitive
              (fun a b : TextDocumentContentChangeEvent =>
                 key_ltb (start_of a) (start_of b) = false)) as Htr.
    { intros a b c. apply key_ltb_trans_ge. }
    apply (@Sorted_unique_strong _ _ Htr l l'); [|done|done|].
    + intros x1 x2 H1 H2 H12 H21.
      apply (NoDup_fmap_inj_on start_of cs); [done| | |].
      * by rewrite <- Hl.
      * by rewrite Hp, <- Hl'.
      * by apply key_ltb_antisym.
    + by rewrite Hl, Hl', Hp.
  - apply no_range_exists in Hr.
    rewrite (sorted_reverse_no_range cs Hr).
    rewrite Hp in Hr. by rewrite (sorted_reverse_no_range cs' Hr).
Qed.

(** An edit of lines within a prefix of the line list leaves the rest of
    the list alone. *)
Lemma apply_range_prefix (P D : list str) (r : Range) (s : str) :
  line (range_start r) < length P ->
  line (range_end r) < length P ->
  apply_range (P ++ D) r s = (l ← apply_range P r s; mret (l ++ D)).
Proof.
  intros H1 H2. unfold apply_range. cbv zeta.
  destruct (decide (line (range_start r) = line (range_end r))) as [He|He].
  - unfold getitem. rewrite lookup_app_l by done.
    destruct (lookup_lt_is_Some_2 P _ H1) as [l ->]. res_simpl.
    by rewrite insert_app_l.
  - rewrite !decide_True by (rewrite ?length_app; lia).
    unfold getitem. rewrite !lookup_app_l by done.
    destruct (lookup_lt_is_Some_2 P _ H1) as [l1 ->].
    destruct (lookup_lt_is_Some_2 P _ H2) as [l2 ->]. res_simpl.
    unfold slice_assign. f_equal.
    rewrite take_app_le by lia. rewrite drop_app_le by lia.
    by rewrite <- !(assoc_L (++)).
Qed.

(** An edit keeps the lines above its start line. *)
Lemma apply_range_keeps_prefix (L : list str) (r : Range) (s : str)
  (lines' : list str) :
  apply_range L r s = Ok lines' ->
  line (range_start r) < length L ->
  exists B, B <> [] /\ lines' = take (line (range_start r)) L ++ B.
Proof.
  unfold apply_range. cbv zeta. intros H Hlt.
  destruct (decide (line (range_start r) = line (range_end r))) as [He|He].
  - unfold getitem in H.
    destruct (lookup_lt_is_Some_2 L _ Hlt) as [l Hl]. rewrite Hl in H.
    revert H. res_simpl. intros [= <-].
    eexists. split; [|by apply insert_take_drop]. done.
  - revert H.
    rewrite (decide_True (P := line (range_start r) < length L)) by done.
    unfold getitem.
    destruct (lookup_lt_is_Some_2 L _ Hlt) as [l ->]. res_simpl.
    destruct (decide (line (range_end r) < length L)) as [H2|H2].
    + destruct (lookup_lt_is_Some_2 L _ H2) as [l2 ->]. res_simpl.
      intros [= <-]. unfold slice_assign. eexists. split; [|done].
      intros Hnil. apply app_eq_nil in Hnil as [Hnil _].
      by apply split_nonempty in Hnil.
    + res_simpl.
      intros [= <-]. unfold slice_assign. eexists. split; [|done].
      intros Hnil. apply app_eq_nil in Hnil as [Hnil _].
      by apply split_nonempty in Hnil.
Qed.

Lemma sorted_reverse_two (r1 r2 : Range) (s1 s2 : str) :
  line (range_start r1) < line (range_start r2) ->
  sorted_reverse [mkChange (Some r1) s1; mkChange (Some r2) s2]
  = Ok [mkChange (Some r2) s2; mkChange (Some r1) s1]
  /\ sorted_reverse [mkChange (Some r2) s2; mkChange (Some r1) s1]
     = Ok [mkChange (Some r2) s2; mkChange (Some r1) s1].
Proof.
  intros Hlt. unfold sorted_reverse. cbn [mapM].
  rewrite !sort_key_change_range. cbn [change_range].
  res_simpl. cbn [foldr insert_desc fst].
  assert (key_ltb (line (range_start r1), character (range_start r1))
            (line (range_start r2), character (range_start r2)) = true) as H.
  { unfold key_ltb. cbn [fst snd]. apply orb_true_iff. left.
    by apply Nat.ltb_lt. }
  rewrite H. by rewrite (key_ltb_asym _ _ H).
Qed.

(** A batch of two range edits, the first wholly on lines above the start
    line of the second, which exists: in either order the batch gives what
    applying the lower edit and then the upper edit, each on its own, gives. *)
Theorem apply_two_edits_sequential (text : str) (r1 r2 : Range)
  (s1 s2 : str) :
  line (range_start r1) < line (range_start r2) ->
  line (range_end r1) < line (range_start r2) ->
  line (range_start r2) < length (split text) ->
  let e1 := mkChange (Some r1) s1 in
  let e2 := mkChange (Some r2) s2 in
  let sequential :=
    t ← _apply_incremental_changes text [e2];
    _apply_incremental_changes t [e1] in
  _apply_incremental_changes text [e1; e2] = sequential
  /\ _apply_incremental_changes text [e2; e1] = sequential.
Proof.
  intros H1 H2 H3. cbv zeta.
  destruct (sorted_reverse_two r1 r2 s1 s2 H1) as [Hs1 Hs2].
  unfold _apply_incremental_changes. rewrite Hs1, Hs2.
  rewrite !sorted_reverse_singleton. res_simpl.
  assert (apply_loop (split text)
            [mkChange (Some r2) s2; mkChange (Some r1) s1]
          = t ← apply_loop (split text) [mkChange (Some r2) s2];
            apply_loop (split t) [mkChange (Some r1) s1]) as ->; [|done].
  cbn [apply_loop get_range change_text]; res_simpl.
  destruct (apply_range (split text) r2 s2) as [lines'|e] eqn:Hr2; [|done].
  res_simpl.
  destruct (apply_range_keeps_prefix _ _ _ _ Hr2 H3) as (B & HB & ->).
  pose proof (split_no_NL text) as Hnl.
  rewrite split_join_prefix by (first [by apply Forall_take | done]).
  assert (split (join B) <> []) as HB' by apply split_nonempty.
  rewrite !apply_range_prefix by (rewrite length_take; lia).
  destruct (apply_range (take (line (range_start r2)) (split text)) r1 s1)
    as [l|e]; [|done].
  res_simpl. f_equal. rewrite !join_app_l by done. by rewrite join_split.
Qed.

(** The one raise of the loop body: the unguarded read of the single-line
    branch. *)
Lemma apply_range_raise (lines : list str) (r : Range) (s : str) (e : exn) :
  apply_range lines r s = Raise e ->
  e = IndexError
  /\ line (range_start r) = line (range_end r)
  /\ length lines <= line (range_start r).
Proof.
  intros H.
  destruct (decide (line (range_start r) = line (range_end r))) as [He|He].
  - revert H. unfold apply_range. cbv zeta. rewrite decide_True by done.
    unfold getitem.
    destruct (lines !! line (range_start r)) as [l|] eqn:Hl; [done|].
    intros [= <-]. split_and!; try done. by apply lookup_ge_None.
  - destruct (apply_range_multi_line_ok lines r s He) as [l Hl]. congruence.
Qed.

Lemma apply_loop_raise (cs : list TextDocumentContentChangeEvent) (e : exn) :
  Forall (fun c => is_Some (change_range c)) cs ->
  forall lines,
    apply_loop lines cs = Raise e ->
    e = IndexError /\ Exists single_line cs.
Proof.
  induction 1 as [|c cs [r Hc] _ IH]; intros lines; [done|].
  cbn [apply_loop]. rewrite (get_range_Some _ _ Hc). res_simpl.
  destruct (apply_range lines r (change_text c)) as [l|e'] eqn:Hr.
  - res_simpl. intros H. apply IH in H as [-> H].
    split; [done | by apply Exists_cons_tl].
  - res_simpl. intros [= <-]. apply apply_range_raise in Hr as (-> & He & _).
    split; [done|]. apply Exists_cons_hd. by exists r.
Qed.

Lemma apply_raise (text : str) (cs : list TextDocumentContentChangeEvent)
  (e : exn) :
  _apply_incremental_changes text cs = Raise e ->
  (e = AttributeError /\ Exists (fun c => change_range c = None) cs)
  \/ (e = IndexError
      /\ Forall (fun c => is_Some (change_range c)) cs
      /\ Exists single_line cs).
Proof.
  unfold _apply_incremental_changes.
  destruct (decide (Forall (fun c => is_Some (change_range c)) cs))
    as [Hr|Hr].
  - destruct (sorted_reverse_ranged cs Hr) as (l & -> & Hl). res_simpl.
    intros H. right. apply apply_loop_raise in H as [-> H];
      [|by rewrite Hl].
    split_and!; try done. by rewrite <- Hl.
  - apply no_range_exists in Hr.
    rewrite (sorted_reverse_no_range cs Hr). intros [= <-]. by left.
Qed.

(** The applicator raises [AttributeError] exactly when some change of the
    batch has no range. *)
Theorem apply_attribute_error_iff (text : str)
  (cs : list TextDocumentContentChangeEvent) :
  _apply_incremental_changes text cs = Raise AttributeError
  <-> Exists (fun c => change_range c = None) cs.
Proof.
  split.
  - intros H. by apply apply_raise in H as [[_ H]|[? _]].
  - intros H. unfold _apply_incremental_changes.
    by rewrite sorted_reverse_no_range.
Qed.

(** Whatever the applicator raises is an [AttributeError], for a batch with
    a change without a range, or an [IndexError], for a batch of range edits
    of which one is a single-line edit. *)
Theorem apply_raises_characterised (text : str)
  (cs : list TextDocumentContentChangeEvent) (e : exn) :
  _apply_incremental_changes text cs = Raise e ->
  (e = AttributeError /\ Exists (fun c => change_range c = None) cs)
  \/ (e = IndexError
      /\ Forall (fun c => is_Some (change_range c)) cs
      /\ Exists single_line cs).
Proof. apply apply_raise. Qed.

(** A multi-line edit whose two lines lie past the last line appends its
    text to the document, on a new line. *)
Theorem apply_multi_line_beyond_appends (text s : str)
  (sl sc el ec : nat) :
  sl <> el ->
  length (split text) <= sl ->
  length (split text) <= el ->
  _apply_incremental_changes text [RangeReplace sl sc el ec s]
  = Ok (text ++ NL :: s).
Proof.
  intros Hne H1 H2. unfold _apply_incremental_changes, RangeReplace.
  rewrite sorted_reverse_singleton. res_simpl.
  cbn [apply_loop get_range change_text]; res_simpl.
  rewrite apply_range_beyond_appends by done. res_simpl.
  cbn [apply_loop]. f_equal.
  rewrite join_app_r by apply split_nonempty.
  pose proof (split_nonempty s) as Hs.
  rewrite join_cons by done. by rewrite !join_split.
Qed.

(** A single-line edit whose character offsets lie past the end of its line
    appends its text to that line. *)
Theorem apply_char_beyond_line_end_appends (text s l : str)
  (sl sc ec : nat) :
  split text !! sl = Some l ->
  length l <= sc ->
  length l <= ec ->
  _apply_incremental_changes text [RangeReplace sl sc sl ec s]
  = Ok (join (<[sl := l ++ s]> (split text))).
Proof.
  intros Hl H1 H2. unfold _apply_incremental_changes, RangeReplace.
  rewrite sorted_reverse_singleton. res_simpl.
  cbn [apply_loop get_range change_text]; res_simpl. unfold apply_range.
  cbn [line character range_start range_end].
  rewrite decide_True by done. unfold getitem. rewrite Hl. res_simpl.
  cbn [apply_loop]. rewrite take_ge by done. rewrite drop_ge by done.
  by rewrite app_nil_r.
Qed.

(** ** The diagnostic extractor, continued *)

Lemma own_diagnostics_flagged (text : str) (l : list Node) :
  diag_range <$> flat_map (own_diagnostics text) l
  = _node_to_range <$> filter (fun n => flagged n = true) l.
Proof.
  induction l as [|n l IH]; [done|].
  cbn [flat_map]. rewrite fmap_app, IH, filter_cons.
  unfold own_diagnostics, flagged.
  destruct (is_error n); [done|]. by destruct (is_missing n).
Qed.

(** The ranges of the diagnostics are the spans of the nodes that are of the
    error type or tagged missing, one per node, in pre-order. *)
Theorem diagnostics_ranges_of_flagged_nodes (tree : Tree) (text : str) :
  diag_range <$> _get_diagnostics (Some tree) text
  = _node_to_range
      <$> filter (fun n => type n = "ERROR"%string \/ is_missing n = true)
            (preorder (root_node tree)).
Proof.
  unfold _get_diagnostics. rewrite app_nil_l, find_syntax_errors_preorder.
  rewrite own_diagnostics_flagged. f_equal.
  apply list_filter_iff. intros n. unfold flagged.
  by rewrite orb_true_iff, is_error_true.
Qed.

(** A parsed tree gives no diagnostic exactly when none of its nodes is of
    the error type or tagged missing; the [has_error] flags play no part. *)
Theorem get_diagnostics_empty_iff (tree : Tree) (text : str) :
  _get_diagnostics (Some tree) text = []
  <-> Forall (fun n => type n <> "ERROR"%string /\ is_missing n = false)
        (preorder (root_node tree)).
Proof.
  unfold _get_diagnostics. rewrite app_nil_l, find_syntax_errors_preorder.
  induction (preorder (root_node tree)) as [|n l IH]; [by split|].
  cbn [flat_map]. rewrite Forall_cons, <- IH. clear IH.
  unfold own_diagnostics.
  destruct (is_error n) eqn:He.
  - apply is_error_true in He. split; [done|]. by intros [[? _] _].
  - assert (type n <> "ERROR"%string) as Hne.
    { intros Ht. apply is_error_true in Ht. congruence. }
    destruct (is_missing n); split; try done.
    + by intros [[_ ?] _].
    + intros [_ ?]. done.
Qed.

(** Every diagnostic of an analysis has severity [Error], whether or not
    the parse succeeds. *)
Theorem analyze_document_all_errors (self : SystemVerilogLanguageServer)
  (text : str) :
  Forall (fun d => severity d = Error) (_analyze_document self text).
Proof.
  unfold _analyze_document, _get_diagnostics.
  destruct (_parse self text) as [tree|]; [|by repeat constructor].
  rewrite app_nil_l, find_syntax_errors_preorder.
  induction (preorder (root_node tree)) as [|n l IH]; [constructor|].
  cbn [flat_map]. apply Forall_app. split; [|done].
  unfold own_diagnostics.
  destruct (is_error n); [by repeat constructor|].
  destruct (is_missing n); by repeat constructor.
Qed.

(** For a tree without error-type nodes the diagnostics are the [Missing
    token] diagnostics of its missing nodes, in pre-order, whatever the
    text. *)
Theorem missing_nodes_only (tree : Tree) (text : str) :
  error_nodes (root_node tree) = [] ->
  _get_diagnostics (Some tree) text
  = missing_diagnostic
      <$> filter (fun n => is_missing n = true) (preorder (root_node tree)).
Proof.
  unfold _get_diagnostics, error_nodes.
  rewrite app_nil_l, find_syntax_errors_preorder.
  induction (preorder (root_node tree)) as [|n l IH]; [done|].
  rewrite !filter_cons. cbn [flat_map].
  destruct (decide (type n = "ERROR"%string)) as [He|He]; [done|].
  intros Hl. rewrite IH by done. unfold own_diagnostics.
  destruct (is_error n) eqn:Hie; [by apply is_error_true in Hie|].
  by destruct (is_missing n).
Qed.

(** ** The parse adapter *)

Lemma utf8_surrogate (text : str) :
  has_surrogate text = true -> utf8 text = Raise UnicodeEncodeError.
Proof.
  unfold utf8. intros H.
  assert (mapM utf8_char text = Raise UnicodeEncodeError) as ->; [|done].
  induction text as [|c text IH]; [done|].
  cbn [has_surrogate existsb] in H. cbn [mapM].
  destruct (utf8_char c) as [b|e] eqn:Hc.
  - res_simpl. rewrite IH; [done|].
    apply orb_true_iff in H as [H|H]; [|done].
    unfold utf8_char in Hc. apply andb_true_iff in H as [Hlo Hhi].
    apply N.leb_le in Hlo.
    destruct (c <? 128)%N eqn:E1; [apply N.ltb_lt in E1; lia|].
    destruct (c <? 2048)%N eqn:E2; [apply N.ltb_lt in E2; lia|].
    rewrite (proj2 (N.leb_le _ _) Hlo), Hhi in Hc. done.
  - res_simpl. f_equal. unfold utf8_char in Hc.
    repeat case_match; congruence.
Qed.

(** A text with a surrogate code point cannot be encoded: the parser is not
    called, whatever it is, and the analysis is the one parse-failure
    diagnostic. *)
Theorem surrogate_text_never_parsed (self : SystemVerilogLanguageServer)
  (text : str) :
  has_surrogate text = true ->
  _parse self text = None
  /\ _analyze_document self text = [parse_failed_diagnostic].
Proof.
  intros H. unfold _analyze_document, _parse.
  by rewrite (utf8_surrogate text H).
Qed.

(** ** The handlers, continued *)



(** A batch whose first change has a range and in which a later change has
    none makes [did_change] raise [AttributeError], with the store as
    before. *)
Theorem did_change_later_no_range_raises (ls : SystemVerilogLanguageServer)
  (uri : string) (first : TextDocumentContentChangeEvent)
  (rest : list TextDocumentContentChangeEvent) :
  is_Some (change_range first) ->
  Exists (fun c => change_range c = None) rest ->
  did_change ls uri (first :: rest) = (ls, Raise AttributeError).
Proof.
  intros [r Hr] He. unfold did_change, changed_text.
  rewrite (get_range_Some _ _ Hr). res_simpl.
  unfold _apply_incremental_changes.
  rewrite sorted_reverse_no_range; [done|]. by apply Exists_cons_tl.
Qed.


(** A change for a URI that is not in the store is handled as if the empty
    text were stored under it: the two runs publish or raise the same, and
    leave the same server whenever the run stores a text; when it does not,
    each leaves the server it started from. *)
Theorem did_change_unknown_uri_as_empty (ls : SystemVerilogLanguageServer)
  (uri : string) (cs : list TextDocumentContentChangeEvent) :
  documents ls !! uri = None ->
  cs <> [] ->
  let run := did_change ls uri cs in
  let run_empty := did_change (set_document ls uri []) uri cs in
  run.2 = run_empty.2
  /\ (is_Some (documents run.1 !! uri) -> run = run_empty)
  /\ (documents run.1 !! uri = None ->
      run.1 = ls /\ run_empty.1 = set_document ls uri []).
Proof.
  intros Hu Hcs. cbv zeta. destruct cs as [|c rest]; [done|].
  unfold did_change.
  assert (documents (set_document ls uri []) !! uri = Some []) as ->
    by apply lookup_insert_eq.
  rewrite Hu. cbn [default from_option id].
  destruct (changed_text [] c (c :: rest)) as [t|e].
  - assert (set_document (set_document ls uri []) uri t
            = set_document ls uri t) as ->.
    { unfold set_document. cbn [documents parser_parse frames].
      by rewrite insert_insert_eq. }
    split_and!; try done.
    rewrite analyze_and_publish_server. cbn [documents set_document].
    by rewrite lookup_insert_eq.
  - cbn [fst snd]. split_and!; try done.
    rewrite Hu. by intros [? ?].
Qed.

(** When [did_change] returns, the parser is as before, no document has
    left the store, the documents of other URIs are as before, and at most
    one notification was published: it is for the URI of the change and
    carries the analysis of the text now stored under it. *)
Theorem did_change_success_coherent (ls ls' : SystemVerilogLanguageServer)
  (uri : string) (cs : list TextDocumentContentChangeEvent)
  (out : list (string * list Diagnostic)) :
  did_change ls uri cs = (ls', Ok out) ->
  parser_parse ls' = parser_parse ls
  /\ dom (documents ls) ⊆ dom (documents ls')
  /\ (forall u, u <> uri -> documents ls' !! u = documents ls !! u)
  /\ length out <= 1
  /\ Forall (fun p => p.1 = uri
                      /\ exists t, documents ls' !! uri = Some t
                                   /\ p.2 = _analyze_document ls' t) out.
Proof.
  unfold did_change. destruct cs as [|c rest].
  { intros [= <- <-]. split_and!; try done. cbn. lia. }
  destruct (changed_text _ c (c :: rest)) as [t|e]; [|done].
  unfold analyze_and_publish.
  destruct (_analyze_document_within _ t) as [ds|e] eqn:Ha; [|done].
  apply analyze_document_within_Ok in Ha as ->.
  intros [= <- <-]. split_and!; try done.
  - cbn [documents set_document]. rewrite dom_insert. set_solver.
  - intros u Hu. by apply lookup_insert_ne.
  - apply Forall_singleton. split; [done|]. exists t.
    split; [apply lookup_insert_eq | done].
Qed.

(** ** Instances of the further properties *)

Lemma apply_raises_characterised_witness :
  _apply_incremental_changes (lit "a") [RangeReplace 3 0 3 0 (lit "x")]
  = Raise IndexError
  /\ exists c, c ∈ [RangeReplace 3 0 3 0 (lit "x")] /\ single_line c.
Proof.
  split; [reflexivity|].
  destruct (apply_raises_characterised (lit "a")
              [RangeReplace 3 0 3 0 (lit "x")] IndexError eq_refl)
    as [[H _]|(_ & _ & H)]; [discriminate H|].
  apply Exists_exists in H. exact H.
Defined.

Lemma apply_single_line_out_of_range_witness :
  length (split (lit "a")) <= 3
  /\ _apply_incremental_changes (lit "a") [RangeReplace 3 0 3 0 (lit "x")]
     = Raise IndexError.
Proof.
  split; [vm_compute; lia|].
  apply (apply_single_line_out_of_range (lit "a") 3 0 0 (lit "x")).
  vm_compute; lia.
Defined.

Lemma apply_multi_line_batch_ok_witness :
  Forall multi_line
    [mkChange (Some edit_top) (lit "top;"); mkChange (Some edit_bottom) []]
  /\ exists t,
       _apply_incremental_changes five_lines
         [mkChange (Some edit_top) (lit "top;");
          mkChange (Some edit_bottom) []]
       = Ok t.
Proof.
  assert (Forall multi_line
            [mkChange (Some edit_top) (lit "top;");
             mkChange (Some edit_bottom) []]) as H.
  { repeat apply Forall_cons_2; [| |apply Forall_nil_2].
    - exists edit_top. split; [reflexivity | vm_compute; lia].
    - exists edit_bottom. split; [reflexivity | vm_compute; lia]. }
  split; [exact H|].
  exact (apply_multi_line_batch_ok five_lines _ H).
Defined.

Lemma apply_multi_line_beyond_appends_witness :
  3 <> 4
  /\ length (split (lit "a")) <= 3
  /\ length (split (lit "a")) <= 4
  /\ _apply_incremental_changes (lit "a") [RangeReplace 3 0 4 0 (lit "x")]
     = Ok (lit "a" ++ NL :: lit "x").
Proof.
  split; [lia|]. split; [vm_compute; lia|]. split; [vm_compute; lia|].
  apply (apply_multi_line_beyond_appends (lit "a") (lit "x") 3 0 4 0);
    vm_compute; lia.
Defined.

Lemma apply_char_beyond_line_end_appends_witness :
  split (lit "ab") !! 0 = Some (lit "ab")
  /\ length (lit "ab") <= 5
  /\ length (lit "ab") <= 7
  /\ _apply_incremental_changes (lit "ab") [RangeReplace 0 5 0 7 (lit "c")]
     = Ok (join (<[0 := lit "ab" ++ lit "c"]> (split (lit "ab")))).
Proof.
  split; [reflexivity|]. split; [vm_compute; lia|]. split; [vm_compute; lia|].
  apply (apply_char_beyond_line_end_appends (lit "ab") (lit "c") (lit "ab")
           0 5 7); [reflexivity | vm_compute; lia | vm_compute; lia].
Defined.

Lemma apply_range_edit_splices_text_witness :
  let text := lit "module m; endmodule" in
  let pre := lit "module m; " in
  let mid := lit "endmodule" in
  split text !! 0 = Some (pre ++ mid ++ [])
  /\ _apply_incremental_changes text
       [RangeReplace 0 (length pre) 0 (length (pre ++ mid)) []]
     = Ok (take (offset (split text) 0 (length pre)) text
           ++ [] ++ drop (offset (split text) 0 (length (pre ++ mid))) text).
Proof.
  cbv zeta. split; [reflexivity|].
  exact (proj1 (apply_range_edit_splices_text (lit "module m; endmodule") [])
           0 (lit "module m; ") (lit "endmodule") [] eq_refl).
Defined.

Lemma sorted_reverse_sorts_witness :
  Forall (fun c => is_Some (change_range c))
    [RangeReplace 0 5 0 5 (lit "a"); RangeReplace 2 0 2 1 (lit "b");
     RangeReplace 0 5 0 6 (lit "c")]
  /\ exists l,
       sorted_reverse
         [RangeReplace 0 5 0 5 (lit "a"); RangeReplace 2 0 2 1 (lit "b");
          RangeReplace 0 5 0 6 (lit "c")]
       = Ok l
       /\ l ≡ₚ [RangeReplace 0 5 0 5 (lit "a");
                RangeReplace 2 0 2 1 (lit "b");
                RangeReplace 0 5 0 6 (lit "c")].
Proof.
  assert (Forall (fun c => is_Some (change_range c))
            [RangeReplace 0 5 0 5 (lit "a"); RangeReplace 2 0 2 1 (lit "b");
             RangeReplace 0 5 0 6 (lit "c")]) as H.
  { repeat apply Forall_cons_2; [| | |apply Forall_nil_2];
      eexists; reflexivity. }
  split; [exact H|].
  destruct (sorted_reverse_sorts _ H) as (l & H1 & H2 & _).
  exists l. split; [exact H1 | exact H2].
Defined.

Lemma apply_batch_order_irrelevant_witness :
  [mkChange (Some edit_top) (lit "top;"); mkChange (Some edit_bottom) []]
  ≡ₚ [mkChange (Some edit_bottom) []; mkChange (Some edit_top) (lit "top;")]
  /\ NoDup (start_of <$> [mkChange (Some edit_top) (lit "top;");
                          mkChange (Some edit_bottom) []])
  /\ _apply_incremental_changes five_lines
       [mkChange (Some edit_top) (lit "top;"); mkChange (Some edit_bottom) []]
     = _apply_incremental_changes five_lines
         [mkChange (Some edit_bottom) [];
          mkChange (Some edit_top) (lit "top;")].
Proof.
  assert (NoDup (start_of <$> [mkChange (Some edit_top) (lit "top;");
                               mkChange (Some edit_bottom) []])) as H.
  { apply (bool_decide_unpack _). reflexivity. }
  split; [apply perm_swap|]. split; [exact H|].
  apply (apply_batch_order_irrelevant five_lines); [apply perm_swap | exact H].
Defined.

Lemma apply_two_edits_sequential_witness :
  line (range_start edit_top) < line (range_start edit_bottom)
  /\ line (range_end edit_top) < line (range_start edit_bottom)
  /\ line (range_start edit_bottom) < length (split five_lines)
  /\ _apply_incremental_changes five_lines
       [mkChange (Some edit_top) (lit "top;"); mkChange (Some edit_bottom) []]
     = (t ← _apply_incremental_changes five_lines
              [mkChange (Some edit_bottom) []];
        _apply_incremental_changes t [mkChange (Some edit_top) (lit "top;")]).
Proof.
  split; [vm_compute; lia|]. split; [vm_compute; lia|]. split; [vm_compute; lia|].
  apply (apply_two_edits_sequential five_lines edit_top edit_bottom
           (lit "top;") []); [vm_compute; lia | vm_compute; lia | vm_compute; lia].
Defined.

Lemma split_join_witness :
  [lit "a"; lit "b"] <> []
  /\ Forall (fun l => NL ∉ l) [lit "a"; lit "b"]
  /\ split (join [lit "a"; lit "b"]) = [lit "a"; lit "b"].
Proof.
  assert (Forall (fun l : str => NL ∉ l) [lit "a"; lit "b"]) as H.
  { apply (bool_decide_unpack _). reflexivity. }
  split; [discriminate|]. split; [exact H|].
  apply split_join; [discriminate | exact H].
Defined.

Lemma missing_nodes_only_witness :
  error_nodes (root_node missing_tree) = []
  /\ _get_diagnostics (Some missing_tree) (lit "module m;")
     = missing_diagnostic
         <$> filter (fun n => is_missing n = true)
               (preorder (root_node missing_tree)).
Proof.
  split; [reflexivity|].
  apply (missing_nodes_only missing_tree (lit "module m;")). reflexivity.
Defined.

Lemma surrogate_text_never_parsed_witness :
  has_surrogate [109; 0xD800]%N = true
  /\ _parse sample_server [109; 0xD800]%N = None
  /\ _analyze_document sample_server [109; 0xD800]%N
     = [parse_failed_diagnostic].
Proof.
  split; [reflexivity|].
  apply (surrogate_text_never_parsed sample_server [109; 0xD800]%N).
  reflexivity.
Defined.


Lemma did_change_later_no_range_raises_witness :
  is_Some (change_range (RangeReplace 0 0 0 1 (lit "b")))
  /\ Exists (fun c => change_range c = None) [FullReplace (lit "c")]
  /\ did_change sample_server "file:///m.sv"
       [RangeReplace 0 0 0 1 (lit "b"); FullReplace (lit "c")]
     = (sample_server, Raise AttributeError).
Proof.
  split; [eexists; reflexivity|].
  split; [apply Exists_cons_hd; reflexivity|].
  apply (did_change_later_no_range_raises sample_server "file:///m.sv"
           (RangeReplace 0 0 0 1 (lit "b")) [FullReplace (lit "c")]).
  - eexists; reflexivity.
  - apply Exists_cons_hd; reflexivity.
Defined.

Lemma did_change_unknown_uri_as_empty_witness :
  documents failing_server !! "u"%string = None
  /\ [RangeReplace 0 0 0 0 (lit "x")] <> []
  /\ did_change failing_server "u" [RangeReplace 0 0 0 0 (lit "x")]
     = did_change (set_document failing_server "u" []) "u"
         [RangeReplace 0 0 0 0 (lit "x")].
Proof.
  split; [reflexivity|]. split; [discriminate|].
  apply (did_change_unknown_uri_as_empty failing_server "u"
           [RangeReplace 0 0 0 0 (lit "x")]);
    [reflexivity | discriminate | eexists; reflexivity].
Defined.

Lemma did_change_success_coherent_witness :
  did_change failing_server "u" [RangeReplace 0 0 0 0 (lit "x")]
  = (mkServer failing_parser 900 {[ "u"%string := lit "x" ]},
     Ok [("u"%string, [parse_failed_diagnostic])])
  /\ dom (documents failing_server)
     ⊆ dom (documents (mkServer failing_parser 900
                         {[ "u"%string := lit "x" ]})).
Proof.
  split; [reflexivity|].
  apply (did_change_success_coherent failing_server
           (mkServer failing_parser 900 {[ "u"%string := lit "x" ]}) "u"
           [RangeReplace 0 0 0 0 (lit "x")]
           [("u"%string, [parse_failed_diagnostic])]).
  reflexivity.
Defined.
